(** * Contraction Clock: the pure computation layer of [src/App.jsx]

    A shallow embedding of the segment builder, the 5-1-1 streak evaluator,
    the session aggregates, the pan offset, the start/stop command and the
    amplitude curve of the React component [ContractionClock].

    Numbers.  Time stamps and durations are the integer milliseconds that
    [Date.now()] returns: [Z].  Pixel quantities, averages and intensities
    are JavaScript Numbers obtained by division; they are modelled as exact
    rationals [Q] (compared with [==]).  The amplitude curve uses [Math.exp]
    and is modelled over the real numbers [R].  Where the order of rounded
    additions matters, the segment builder is also given in binary64
    (module [B64]). *)

From Stdlib Require Import ZArith QArith Qminmax Qround List Bool String Ascii Lia Lqa.
From Stdlib Require Import DecimalString.
From Stdlib Require Import Reals Lra Qreals.
From Stdlib Require Floats.PrimFloat Numbers.Cyclic.Int63.Uint63.
Import ListNotations.

Local Open Scope Z_scope.

(** Linear arithmetic over [Q] and over [R]. *)
Ltac qlra := Lqa.lra.
Ltac rlra := Lra.lra.
Ltac rnra := Lra.nra.

(** ** Constants (lines 6-14) *)

Definition TICK_MS : Z := 100.
Definition Y_AXIS_W : Q := 44%Q.
Definition X_LABEL_H : Q := 22%Q.
Definition CHART_H : Q := 220%Q.
Definition PLOT_H : Q := (CHART_H - X_LABEL_H)%Q.
Definition PEAK_PAD : Q := 16%Q.
Definition PX_PER_SEC : Q := 4%Q.
Definition MIN_REST_PX : Q := 32%Q.

(** [LEAD_PX] is declared inside the component (line 143). *)
Definition LEAD_PX : Q := 24%Q.

(** The literal [8] of [Math.max(8, secPx(...))] (lines 155 and 168). *)
Definition MIN_BELL_PX : Q := 8%Q.

Definition FIVE_MIN_MS : Z := 5 * 60 * 1000.
Definition ONE_MIN_MS : Z := 60 * 1000.
Definition ONE_HOUR_MS : Z := 60 * 60 * 1000.

(** ** Data *)

(** One finished contraction, as [toggleContraction] stores it (lines 127-130). *)
Record Contraction : Type := mkContraction {
  cid : Z;
  start : Z;
  end_ : Z;
  duration : Z;
  intensity : Q
}.

(** The objects pushed on [segments]: [type: "flat"] with an optional label,
    [type: "bell"] carrying a stored contraction [c], and the active
    [type: "bell"] carrying [progress] and [intensity]. *)
Inductive Segment : Type :=
| Flat (x widthPx : Q) (label : option string)
| Bell (x widthPx : Q) (c : Contraction)
| ActiveBell (x widthPx : Q) (progress : Q) (inten : Q).

Inductive SegType : Type := flat | bell.

Definition seg_type (s : Segment) : SegType :=
  match s with
  | Flat _ _ _ => flat
  | Bell _ _ _ => bell
  | ActiveBell _ _ _ _ => bell
  end.

Definition seg_x (s : Segment) : Q :=
  match s with
  | Flat x _ _ => x
  | Bell x _ _ => x
  | ActiveBell x _ _ _ => x
  end.

Definition seg_widthPx (s : Segment) : Q :=
  match s with
  | Flat _ w _ => w
  | Bell _ w _ => w
  | ActiveBell _ w _ _ => w
  end.

Definition seg_active (s : Segment) : bool :=
  match s with
  | ActiveBell _ _ _ _ => true
  | _ => false
  end.

(** [seg.active ? seg.intensity : seg.c.intensity] (line 537). *)
Definition seg_inten (s : Segment) : option Q :=
  match s with
  | Flat _ _ _ => None
  | Bell _ _ c => Some (intensity c)
  | ActiveBell _ _ _ i => Some i
  end.

(** ** Helper functions *)

(** [secPx(ms) = (ms / 1000) * PX_PER_SEC] (lines 43-45). *)
Definition secPx (ms : Z) : Q := ((inject_Z ms / 1000) * PX_PER_SEC)%Q.

(** Decimal rendering of an integer inside a template literal. *)
Definition showZ (n : Z) : string := NilEmpty.string_of_int (Z.to_int n).

(** [formatDuration] (lines 47-51).  On an integer [ms],
    [Math.round(ms / 1000)] is [floor((ms + 500) / 1000)]; [Math.floor(s / 60)]
    is the floor quotient and [s % 60] the remainder with the sign of [s]. *)
Definition formatDuration (ms : Z) : string :=
  let s := (ms + 500) / 1000 in
  let m := s / 60 in
  if 0 <? m
  then (showZ m ++ "m " ++ showZ (Z.rem s 60) ++ "s")%string
  else (showZ s ++ "s")%string.

(** JavaScript truthiness of [activeStart], which is [null] or a number. *)
Definition truthy (a : option Z) : bool :=
  match a with
  | None => false
  | Some t => negb (t =? 0)
  end.

(** ** Exceptions

    Reading a property of [undefined] throws; an index expression
    [contractions[i]] is a lookup that may fail, and code that uses it runs
    in the error monad below. *)

Inductive Exn : Type := TypeError | SyntaxError | SecurityError.

Inductive completion (A : Type) : Type :=
| Normal (v : A)
| Throw (e : Exn).
Arguments Normal {A} v.
Arguments Throw {A} e.

Definition bind {A B : Type} (m : completion A) (k : A -> completion B)
  : completion B :=
  match m with
  | Normal v => k v
  | Throw e => Throw e
  end.

Notation "x <- m ;; k" := (bind m (fun x => k))
  (at level 61, m at next level, right associativity).

(** [try { body } catch { handler }] *)
Definition try_catch {A : Type} (body : completion A) (handler : A) : completion A :=
  match body with
  | Normal v => Normal v
  | Throw _ => Normal handler
  end.

(** [contractions[i]] followed by a property read. *)
Definition at_index (contractions : list Contraction) (i : Z)
  : completion Contraction :=
  if i <? 0 then Throw TypeError
  else match nth_error contractions (Z.to_nat i) with
       | Some c => Normal c
       | None => Throw TypeError
       end.

Definition length_ (contractions : list Contraction) : Z :=
  Z.of_nat (List.length contractions).

(** ** The segment builder (lines 141-176) *)

(** The mutable pair the loop updates: the array [segments] and [cursor]. *)
Record Builder : Type := mkBuilder {
  segments : list Segment;
  cursor : Q
}.

Definition push (b : Builder) (s : Segment) : Builder :=
  mkBuilder (segments b ++ [s]) (cursor b).

Definition advance (b : Builder) (w : Q) : Builder :=
  mkBuilder (segments b) (cursor b + w)%Q.

(** The callback of [contractions.forEach((c, i) => ...)] (lines 148-158). *)
Definition forEach_body (contractions : list Contraction)
    (c : Contraction) (i : Z) (b : Builder) : completion Builder :=
  b1 <- (if 0 <? i then
           prev <- at_index contractions (i - 1) ;;
           let restMs := start c - end_ prev in
           let restPx := Qmax MIN_REST_PX (secPx restMs) in
           Normal (advance
                     (push b (Flat (cursor b) restPx (Some (formatDuration restMs))))
                     restPx)
         else Normal b) ;;
  let bellPx := Qmax MIN_BELL_PX (secPx (duration c)) in
  Normal (advance (push b1 (Bell (cursor b1) bellPx c)) bellPx).

(** [forEach] visits the elements in order with their index. *)
Fixpoint forEach (contractions rest : list Contraction) (i : Z) (b : Builder)
  : completion Builder :=
  match rest with
  | [] => Normal b
  | c :: rest' =>
      b' <- forEach_body contractions c i b ;;
      forEach contractions rest' (i + 1) b'
  end.

(** The [if (activeStart) { ... }] block (lines 160-171). *)
Definition active_block (contractions : list Contraction) (activeStart : option Z)
    (now : Z) (intensitySetting : Z) (b : Builder) : completion Builder :=
  match activeStart with
  | Some a =>
      if truthy activeStart then
        let elapsedMs := now - a in
        b1 <- (if 0 <? length_ contractions then
                 lastc <- at_index contractions (length_ contractions - 1) ;;
                 let restMs := a - end_ lastc in
                 let restPx := Qmax MIN_REST_PX (secPx restMs) in
                 Normal (advance (push b (Flat (cursor b) restPx None)) restPx)
               else Normal b) ;;
        let activePx := Qmax MIN_BELL_PX (secPx elapsedMs) in
        Normal (advance
                  (push b1 (ActiveBell (cursor b1) activePx 1%Q
                              (inject_Z intensitySetting / 10)%Q))
                  activePx)
      else Normal b
  | None => Normal b
  end.

(** The whole block: returns the array [segments] and [svgWidth]. *)
Definition build_segments (contractions : list Contraction)
    (activeStart : option Z) (now : Z) (intensitySetting : Z)
  : completion (list Segment * Q) :=
  let b0 := mkBuilder [] (Y_AXIS_W + 8)%Q in
  let b1 := push b0 (Flat (cursor b0 - LEAD_PX)%Q LEAD_PX None) in
  b2 <- forEach contractions contractions 0 b1 ;;
  b3 <- active_block contractions activeStart now intensitySetting b2 ;;
  let b4 := advance (push b3 (Flat (cursor b3) LEAD_PX None)) LEAD_PX in
  Normal (segments b4, cursor b4).

(** Sum of the [widthPx] of a segment list. *)
Definition sum_widths (l : list Segment) : Q :=
  fold_right (fun s acc => (seg_widthPx s + acc)%Q) 0%Q l.

(** ** The 5-1-1 rule (lines 188-225) *)

(** The [for (let i = contractions.length - 2; i >= 0; i--)] loop
    (lines 209-217).  The counter is [i = k - 1]: the loop runs while
    [k > 0], and [break] returns the current [streakBegin]. *)
Fixpoint streak_loop (contractions : list Contraction) (k : nat)
    (streakBegin : Z) : completion Z :=
  match k with
  | O => Normal streakBegin
  | S k' =>
      let i := Z.of_nat k' in
      next <- at_index contractions (i + 1) ;;
      cur <- at_index contractions i ;;
      let interval := start next - start cur in
      let dur := duration cur in
      if (ONE_MIN_MS <=? dur) && (interval <=? FIVE_MIN_MS)
      then streak_loop contractions k' i
      else Normal streakBegin
  end.

(** [qualifyingStreakStart]: [None] is [null]. *)
Definition qualifyingStreakStart (contractions : list Contraction)
  : completion (option Z) :=
  if 1 <=? length_ contractions then
    let streakBegin := length_ contractions - 1 in
    lastc <- at_index contractions streakBegin ;;
    if ONE_MIN_MS <=? duration lastc then
      streakBegin' <- streak_loop contractions
                        (Z.to_nat (length_ contractions - 1)) streakBegin ;;
      first <- at_index contractions streakBegin' ;;
      Normal (Some (start first))
    else Normal None
  else Normal None.

(** [streakDuration] (line 224). *)
Definition streakDuration (qualifyingStart : option Z) (now : Z) : Z :=
  match qualifyingStart with
  | Some q => now - q
  | None => 0
  end.

(** [rule511Met] (line 225). *)
Definition rule511Met (qualifyingStart : option Z) (now : Z) : bool :=
  ONE_HOUR_MS <=? streakDuration qualifyingStart now.

(** ** Session aggregates (lines 227-235) *)

(** [contractions.slice(1)] *)
Definition slice1 (contractions : list Contraction) : list Contraction :=
  tl contractions.

(** [.map((c, i) => c.start - contractions[i].start)] *)
Fixpoint map_intervals (contractions rest : list Contraction) (i : Z)
  : completion (list Z) :=
  match rest with
  | [] => Normal []
  | c :: rest' =>
      prev <- at_index contractions i ;;
      tl_ <- map_intervals contractions rest' (i + 1) ;;
      Normal ((start c - start prev) :: tl_)
  end.

Definition allIntervals (contractions : list Contraction) : completion (list Z) :=
  if 2 <=? length_ contractions
  then map_intervals contractions (slice1 contractions) 0
  else Normal [].

(** [reduce((a, b) => a + b, 0)] *)
Definition sumZ (l : list Z) : Z := fold_left (fun a b => a + b) l 0.

(** [avgRecentInterval]: [None] is [null]. *)
Definition avgRecentInterval (contractions : list Contraction)
  : completion (option Q) :=
  l <- allIntervals contractions ;;
  Normal (if Z.of_nat (List.length l) =? 0 then None
          else Some (inject_Z (sumZ l) / inject_Z (Z.of_nat (List.length l)))%Q).

(** [avgRecentDuration] (and [avgDuration], line 182, the same expression). *)
Definition sumDurations (contractions : list Contraction) : Z :=
  fold_left (fun a b => a + duration b) contractions 0.

Definition avgRecentDuration (contractions : list Contraction) : option Q :=
  if length_ contractions =? 0 then None
  else Some (inject_Z (sumDurations contractions)
             / inject_Z (length_ contractions))%Q.

(** ** Pan offset (lines 242-248) *)

(** [containerWidth > 0] *)
Definition Qpos_bool (q : Q) : bool := negb (Qle_bool q 0).

Definition effectiveContainerWidth (containerWidth svgWidth : Q) : Q :=
  if Qpos_bool containerWidth then containerWidth else svgWidth.

Definition panX (liveScroll : bool) (containerWidth svgWidth : Q) : Q :=
  if liveScroll
  then Qmax (- (svgWidth - Y_AXIS_W))
            (Qmin 0 (effectiveContainerWidth containerWidth svgWidth - svgWidth))
  else 0%Q.

(** ** Component state and commands (lines 73-138) *)

Record State : Type := mkState {
  st_contractions : list Contraction;
  st_activeStart : option Z;
  st_liveScroll : bool;
  st_intensity : Z;
  st_now : Z;
  st_containerWidth : Q
}.

(** The [useState] initial values; [loaded] is what the initializer of
    [contractions] returned and [dateNow] the clock at mount. *)
Definition initialState (loaded : list Contraction) (dateNow : Z) : State :=
  mkState loaded None true 5 dateNow 0%Q.

Definition setActiveStart (v : option Z) (s : State) : State :=
  mkState (st_contractions s) v (st_liveScroll s) (st_intensity s) (st_now s)
          (st_containerWidth s).

Definition setContractions (f : list Contraction -> list Contraction) (s : State)
  : State :=
  mkState (f (st_contractions s)) (st_activeStart s) (st_liveScroll s)
          (st_intensity s) (st_now s) (st_containerWidth s).

Definition setIntensity (n : Z) (s : State) : State :=
  mkState (st_contractions s) (st_activeStart s) (st_liveScroll s) n (st_now s)
          (st_containerWidth s).

Definition setNow (t : Z) (s : State) : State :=
  mkState (st_contractions s) (st_activeStart s) (st_liveScroll s)
          (st_intensity s) t (st_containerWidth s).

Definition setLiveScroll (b : bool) (s : State) : State :=
  mkState (st_contractions s) (st_activeStart s) b (st_intensity s) (st_now s)
          (st_containerWidth s).

Definition setContainerWidth (w : Q) (s : State) : State :=
  mkState (st_contractions s) (st_activeStart s) (st_liveScroll s)
          (st_intensity s) (st_now s) w.

(** [toggleContraction] (lines 121-133); [dateNow] is the value [Date.now()]
    returns when the handler runs. *)
Definition toggleContraction (dateNow : Z) (s : State) : State :=
  match st_activeStart s with
  | Some a =>
      if negb (truthy (st_activeStart s)) then setActiveStart (Some dateNow) s
      else
        let duration := st_now s - a in
        if duration <? 1000 then setActiveStart None s
        else
          setActiveStart None
            (setContractions
               (fun prev =>
                  prev ++ [mkContraction a a (st_now s) duration
                             (inject_Z (st_intensity s) / 10)%Q])
               s)
  | None => setActiveStart (Some dateNow) s
  end.

(** [clearSession] (lines 135-138). *)
Definition clearSession (s : State) : State :=
  setActiveStart None (setContractions (fun _ => []) s).

(** [isActive = !!activeStart] (line 177). *)
Definition isActive (s : State) : bool := truthy (st_activeStart s).

(** The segments and [svgWidth] rendered from a state. *)
Definition render_segments (s : State) : completion (list Segment * Q) :=
  build_segments (st_contractions s) (st_activeStart s) (st_now s) (st_intensity s).

(** The user and timer events the component reacts to.  The slider is
    [<input type="range" min={1} max={10}>] (line 416), so [setIntensity]
    only ever receives an integer from 1 to 10. *)
Inductive step : State -> State -> Prop :=
| step_toggle (s : State) (dateNow : Z) :
    step s (toggleContraction dateNow s)
| step_clear (s : State) :
    step s (clearSession s)
| step_tick (s : State) (dateNow : Z) :
    step s (setNow dateNow s)
| step_intensity (s : State) (n : Z) :
    1 <= n <= 10 -> step s (setIntensity n s)
| step_liveScroll (s : State) (b : bool) :
    step s (setLiveScroll b s)
| step_resize (s : State) (w : Q) :
    step s (setContainerWidth w s).

Inductive reachable (loaded : list Contraction) : State -> Prop :=
| reach_init (dateNow : Z) : reachable loaded (initialState loaded dateNow)
| reach_step (s s' : State) :
    reachable loaded s -> step s s' -> reachable loaded s'.

(** ** Loading the persisted session (lines 73-76) *)

(** The values [JSON.parse] can return. *)
#[local] Set Warnings "-register-all".
Inductive JSValue : Type :=
| JNull
| JBool (b : bool)
| JNum (q : Q)
| JStr (s : string)
| JArr (l : list JSValue)
| JObj (l : list (string * JSValue)).

(** ToBoolean on a parsed value: [null], [false], [0] and the empty string
    are falsy, every array and object is truthy. *)
Definition js_truthy (v : JSValue) : bool :=
  match v with
  | JNull => false
  | JBool b => b
  | JNum q => negb (Qeq_bool q 0%Q)
  | JStr s => negb (String.eqb s "")
  | JArr _ => true
  | JObj _ => true
  end.

(** [localStorage.getItem] returns [null] for an absent key, and
    [JSON.parse] converts its argument to a string first. *)
Definition to_string_arg (stored : option string) : string :=
  match stored with
  | Some s => s
  | None => "null"
  end.

(** The initializer of [contractions].  [getItem] is the completion of
    [localStorage.getItem(STORAGE_KEY)], which returns the stored text or
    [null] and may throw where storage is denied; [JSON_parse] is the
    built-in parser, which returns a value or throws [SyntaxError].  Both
    calls are inside the [try]. *)
Definition initContractions (JSON_parse : string -> completion JSValue)
    (getItem : completion (option string)) : completion JSValue :=
  try_catch
    (stored <- getItem ;;
     v <- JSON_parse (to_string_arg stored) ;;
     Normal (if js_truthy v then v else JArr []))
    (JArr []).

(** A parser for a few JSON literals, enough to run the initializer. *)
Definition literal_parse (s : string) : completion JSValue :=
  if String.eqb s "null" then Normal JNull
  else if String.eqb s "false" then Normal (JBool false)
  else if String.eqb s "true" then Normal (JBool true)
  else if String.eqb s "0" then Normal (JNum 0%Q)
  else if String.eqb s "5" then Normal (JNum 5%Q)
  else if String.eqb s "[]" then Normal (JArr [])
  else if String.eqb s "{}" then Normal (JObj [])
  else Throw SyntaxError.

(** ** The amplitude curve (lines 18-23) *)

Definition gauss (x : R) : R :=
  let sigma := 0.15%R in
  let raw := exp (- ((x - 0.5) ^ 2) / (2 * sigma ^ 2))%R in
  let floor := exp (- (0.5 ^ 2) / (2 * sigma ^ 2))%R in
  Rmax 0 ((raw - floor) / (1 - floor))%R.

(** The curve as the specification writes it. *)
Definition g_spec (t : R) : R := exp (- ((t - 0.5) ^ 2) / (2 * 0.15 ^ 2))%R.

Definition shape_spec (t : R) : R :=
  Rmax 0 ((g_spec t - g_spec 0) / (g_spec 0.5 - g_spec 0))%R.

(** * Definitions used by the statements *)

(** The builder steps, read as one push followed by one advance. *)
Definition emit (b : Builder) (s : Segment) : Builder :=
  advance (push b s) (seg_widthPx s).

(** A run of emits, in order. *)
Fixpoint emit_all (b : Builder) (l : list Segment) : Builder :=
  match l with
  | [] => b
  | s :: t => emit_all (emit b s) t
  end.

(** The width bounds of the segments emitted between the two margins. *)
Definition mid_ok (s : Segment) : Prop :=
  match s with
  | Flat _ w _ => (MIN_REST_PX <= w)%Q
  | Bell _ w _ => (MIN_BELL_PX <= w)%Q
  | ActiveBell _ w _ _ => (MIN_BELL_PX <= w)%Q
  end.

(** [clamp] as the specification uses it: the value, kept inside [lo, hi]. *)
Definition clamp_spec (v lo hi : Q) : Q :=
  if Qlt_le_dec v lo then lo
  else if Qlt_le_dec hi v then hi
  else v.

(** The bound every bump satisfies; a flat segment is not constrained. *)
Definition bump_ok (s : Segment) : Prop :=
  match s with
  | Flat _ _ _ => True
  | Bell _ w _ => (MIN_BELL_PX <= w)%Q
  | ActiveBell _ w _ _ => (MIN_BELL_PX <= w)%Q
  end.

(** An event qualifies alone. *)
Definition qualifies_alone (c : Contraction) : Prop :=
  ONE_MIN_MS <= duration c.

(** The transition from an event to its successor qualifies. *)
Definition transition_qualifies (c next : Contraction) : Prop :=
  start next - start c <= FIVE_MIN_MS.

(** The backward walk may step from event [i + 1] onto event [i]. *)
Definition included_step (cs : list Contraction) (i : nat) : Prop :=
  exists c next,
    nth_error cs i = Some c /\ nth_error cs (S i) = Some next
    /\ qualifies_alone c /\ transition_qualifies c next.

(** Four events of one minute each whose starts are five minutes apart;
    identifiers, ends and intensities are free. *)
Definition four_events (s0 : Z) (ids ends : Z -> Z) (intens : Z -> Q)
  : list Contraction :=
  map (fun n => mkContraction (ids n) (s0 + n * 300000) (ends n) 60000 (intens n))
      [0; 1; 2; 3].

(** The consecutive differences [x1 - x0, x2 - x1, ...] of a sequence. *)
Fixpoint consecutive_diffs (xs : list Z) : list Z :=
  match xs with
  | [] => []
  | a :: t =>
      match t with
      | [] => []
      | b :: _ => (b - a) :: consecutive_diffs t
      end
  end.

(** The mean of a list of integers; there is none for the empty list. *)
Definition mean_spec (l : list Z) : option Q :=
  match l with
  | [] => None
  | _ :: _ =>
      Some (inject_Z (fold_right Z.add 0%Z l)
            / inject_Z (Z.of_nat (List.length l)))%Q
  end.

(** A contraction started at 5000 with the clock at 6000. *)
Definition in_progress_1000 : State := mkState [] (Some 5000) true 5 6000 0%Q.

(** A value [n / 10] for a slider position [n] from 1 to 10. *)
Definition slider_intensity (q : Q) : Prop :=
  exists n, 1 <= n <= 10 /\ q = (inject_Z n / 10)%Q.

(** The slider moved to 10, a contraction begun at 5000, the clock at 7000. *)
Definition slider_at_10 : State :=
  setNow 7000 (toggleContraction 5000 (setIntensity 10 (initialState [] 4000))).

(** The two exponentials of [gauss], named. *)
Definition raw_of (x : R) : R := exp (- ((x - 0.5) ^ 2) / (2 * 0.15 ^ 2))%R.

Definition floor_ : R := exp (- (0.5 ^ 2) / (2 * 0.15 ^ 2))%R.

(** A function rises strictly up to some point of [a, b] and falls strictly
    after it. *)
Definition unimodal_on (f : R -> R) (a b : R) : Prop :=
  exists m, (a <= m <= b)%R
    /\ (forall x y, (a <= x)%R -> (x < y)%R -> (y <= m)%R -> (f x < f y)%R)
    /\ (forall x y, (m <= x)%R -> (x < y)%R -> (y <= b)%R -> (f y < f x)%R).

(** * The segment array in closed form *)

(** The last element of a list, if any. *)
Fixpoint last_opt {A : Type} (l : list A) : option A :=
  match l with
  | [] => None
  | x :: t => match t with [] => Some x | _ :: _ => last_opt t end
  end.

(** What the [forEach] loop emits from cursor [x] for the events [rest],
    [prev] being the event before them: a labelled gap (except before the
    very first event) and a bump per event. *)
Fixpoint history_segments (x : Q) (prev : option Contraction)
    (rest : list Contraction) : list Segment :=
  match rest with
  | [] => []
  | c :: rest' =>
      let bellPx := Qmax MIN_BELL_PX (secPx (duration c)) in
      match prev with
      | None =>
          Bell x bellPx c :: history_segments (x + bellPx)%Q (Some c) rest'
      | Some p =>
          let restMs := start c - end_ p in
          let restPx := Qmax MIN_REST_PX (secPx restMs) in
          Flat x restPx (Some (formatDuration restMs))
            :: Bell (x + restPx)%Q bellPx c
            :: history_segments (x + restPx + bellPx)%Q (Some c) rest'
      end
  end.

(** What the [if (activeStart)] block emits from cursor [x] for a
    contraction in progress since [a], [lastc] being the last stored event. *)
Definition active_segments (x : Q) (lastc : option Contraction) (a now k : Z)
  : list Segment :=
  let activePx := Qmax MIN_BELL_PX (secPx (now - a)) in
  match lastc with
  | None => [ActiveBell x activePx 1%Q (inject_Z k / 10)%Q]
  | Some l =>
      let restPx := Qmax MIN_REST_PX (secPx (a - end_ l)) in
      [Flat x restPx None;
       ActiveBell (x + restPx)%Q activePx 1%Q (inject_Z k / 10)%Q]
  end.

(** The cursor after emitting [l] from [x]. *)
Fixpoint end_x (x : Q) (l : list Segment) : Q :=
  match l with
  | [] => x
  | s :: t => end_x (x + seg_widthPx s)%Q t
  end.

(** The segments between the margins, in closed form. *)
Definition middle_segments (cs : list Contraction) (a : option Z) (now k : Z)
  : list Segment :=
  let hs := history_segments (Y_AXIS_W + 8)%Q None cs in
  match a with
  | Some t =>
      if truthy a
      then hs ++ active_segments (end_x (Y_AXIS_W + 8)%Q hs) (last_opt cs) t now k
      else hs
  | None => hs
  end.

(** The segments [l] tile the axis from [x] to [xe]: each one starts where
    the one before it ends. *)
Fixpoint tiles (x : Q) (l : list Segment) (xe : Q) : Prop :=
  match l with
  | [] => (x == xe)%Q
  | s :: t => (seg_x s == x)%Q /\ tiles (x + seg_widthPx s)%Q t xe
  end.

(** The stored contractions carried by the bumps of an array, in order. *)
Fixpoint bells_of (l : list Segment) : list Contraction :=
  match l with
  | [] => []
  | Bell _ _ c :: t => c :: bells_of t
  | _ :: t => bells_of t
  end.

(** The labels of the flat segments of an array, in order. *)
Fixpoint labels_of (l : list Segment) : list string :=
  match l with
  | [] => []
  | Flat _ _ (Some lbl) :: t => lbl :: labels_of t
  | _ :: t => labels_of t
  end.

(** The number of active bumps of an array. *)
Definition count_active (l : list Segment) : nat :=
  List.length (filter seg_active l).

(** One event and a contraction in progress since 100000. *)
Definition one_event : list Contraction :=
  [mkContraction 1000 1000 61000 60000 (5 # 10)].

(** The rest times between consecutive events, [prev] being the event
    before [rest]: [start] of an event minus [end] of the one before it. *)
Fixpoint rest_gaps (prev : option Contraction) (rest : list Contraction)
  : list Z :=
  match rest with
  | [] => []
  | c :: rest' =>
      match prev with
      | None => rest_gaps (Some c) rest'
      | Some p => (start c - end_ p) :: rest_gaps (Some c) rest'
      end
  end.

(** * Runs of the component under a clock that never goes back *)

(** Every event of [cs] starts at or after the end of the one before it. *)
Fixpoint chronological (cs : list Contraction) : Prop :=
  match cs with
  | [] => True
  | c :: t =>
      match t with
      | [] => True
      | c' :: _ => end_ c <= start c' /\ chronological t
      end
  end.

(** An event as the stop command builds it: identified by its start, lasting
    [end - start], and at least one second long. *)
Definition well_timed (c : Contraction) : Prop :=
  cid c = start c /\ duration c = end_ c - start c /\ 1000 <= duration c.

(** The states the component reaches when the successive values of
    [Date.now()] never decrease.  The index is the last clock value read;
    the session is mounted at [dateNow] with the history [loaded], every
    event of which ended by then. *)
Inductive run (loaded : list Contraction) : Z -> State -> Prop :=
| run_init (dateNow : Z) :
    Forall (fun c => end_ c <= dateNow) loaded ->
    run loaded dateNow (initialState loaded dateNow)
| run_toggle (clock : Z) (s : State) (dateNow : Z) :
    run loaded clock s -> clock <= dateNow ->
    run loaded dateNow (toggleContraction dateNow s)
| run_tick (clock : Z) (s : State) (dateNow : Z) :
    run loaded clock s -> clock <= dateNow ->
    run loaded dateNow (setNow dateNow s)
| run_clear (clock : Z) (s : State) :
    run loaded clock s -> run loaded clock (clearSession s)
| run_intensity (clock : Z) (s : State) (n : Z) :
    run loaded clock s -> 1 <= n <= 10 -> run loaded clock (setIntensity n s)
| run_liveScroll (clock : Z) (s : State) (b : bool) :
    run loaded clock s -> run loaded clock (setLiveScroll b s)
| run_resize (clock : Z) (s : State) (w : Q) :
    run loaded clock s -> run loaded clock (setContainerWidth w s).

(** What such a run keeps true. *)
Definition clock_invariant (clock : Z) (s : State) : Prop :=
  st_now s <= clock
  /\ Forall (fun c => end_ c <= clock) (st_contractions s)
  /\ (forall a, st_activeStart s = Some a ->
                a <= clock /\ Forall (fun c => end_ c <= a) (st_contractions s))
  /\ chronological (st_contractions s)
  /\ Forall well_timed (st_contractions s).

(** Two contractions timed by the clock, the second still in progress. *)
Definition two_contractions_run : State :=
  toggleContraction 400000
    (setNow 70100
       (toggleContraction 70020
          (setNow 70000 (toggleContraction 5000 (initialState [] 4000))))).

(** Three one-minute events five minutes apart, and a fourth candidate. *)
Definition steady_three : list Contraction :=
  [ mkContraction 0 0 60000 60000 (5 # 10);
    mkContraction 300000 300000 360000 60000 (5 # 10);
    mkContraction 600000 600000 660000 60000 (5 # 10) ].

Definition fourth_on_time : Contraction :=
  mkContraction 900000 900000 960000 60000 (5 # 10).

Definition fourth_late : Contraction :=
  mkContraction 900001 900001 960001 60000 (5 # 10).

(** * The pan offset of the earlier version (part_000, lines 171-175) *)

(** [liveScroll && containerWidth > 0 ? Math.max(...) : 0] *)
Definition panX_v0 (liveScroll : bool) (containerWidth svgWidth : Q) : Q :=
  if liveScroll && Qpos_bool containerWidth
  then Qmax (- (svgWidth - Y_AXIS_W)) (Qmin 0 (containerWidth - svgWidth))
  else 0%Q.

(** * The path builder (lines 25-41)

    [buildBellPath] is modelled over the real numbers like [gauss].  The
    number formatter [toFixed(1)] is a built-in and is taken as a parameter. *)

(** [Math.floor] on a real number. *)
Definition Rfloor (x : R) : Z := (up x - 1)%Z.

(** [maxStep = Math.floor(steps * Math.min(progress, 1))] with [steps = 80]. *)
Definition bell_maxStep (progress : R) : Z := Rfloor (80 * Rmin progress 1)%R.

(** The values [i] of [for (let i = 0; i <= maxStep; i++)]. *)
Definition step_indices (maxStep : Z) : list Z :=
  map Z.of_nat (seq 0 (Z.to_nat (maxStep + 1))).

(** The pair [(px, py)] computed in the loop body for step [i]. *)
Definition bell_point (x0 widthPx inten : R) (i : Z) : R * R :=
  let t := (IZR i / 80)%R in
  let px := (x0 + t * widthPx)%R in
  let amp := (gauss t * inten)%R in
  let py := (Q2R PLOT_H - amp * (Q2R PLOT_H - Q2R PEAK_PAD))%R in
  (px, py).

(** The sampled points, before they are formatted. *)
Definition bell_points (x0 widthPx inten progress : R) : list (R * R) :=
  map (bell_point x0 widthPx inten) (step_indices (bell_maxStep progress)).

(** The text of [PLOT_H] inside a template literal. *)
Definition PLOT_H_text : string := "198".

(** [buildBellPath]: the pair is [(stroke, fill)]. *)
Definition buildBellPath (toFixed1 : R -> string)
    (x0 widthPx inten progress : R) : string * string :=
  let pts :=
    map (fun p => (toFixed1 (fst p) ++ "," ++ toFixed1 (snd p))%string)
        (bell_points x0 widthPx inten progress) in
  if Z.of_nat (List.length pts) <? 2 then (EmptyString, EmptyString)
  else
    let stroke := ("M" ++ String.concat "L" pts)%string in
    let lastX := toFixed1 (x0 + Rmin progress 1 * widthPx)%R in
    let fill :=
      (stroke ++ " L" ++ lastX ++ "," ++ PLOT_H_text
              ++ " L" ++ toFixed1 x0 ++ "," ++ PLOT_H_text ++ " Z")%string in
    (stroke, fill).

(** The call of the renderer (lines 537-538):
    [buildBellPath(seg.x, seg.widthPx, inten, seg.progress ?? 1)]. *)
Definition seg_path (toFixed1 : R -> string) (s : Segment)
  : option (string * string) :=
  match s with
  | Flat _ _ _ => None
  | Bell x w c =>
      Some (buildBellPath toFixed1 (Q2R x) (Q2R w) (Q2R (intensity c)) 1%R)
  | ActiveBell x w progress i =>
      Some (buildBellPath toFixed1 (Q2R x) (Q2R w) (Q2R i) (Q2R progress))
  end.

(** A point is in the plot box of the bump drawn from [x0] over [w]
    pixels: between its two ends, and between the top padding and the
    baseline. *)
Definition in_plot_box (x0 w : R) (p : R * R) : Prop :=
  (x0 <= fst p <= x0 + w)%R /\ (Q2R PEAK_PAD <= snd p <= Q2R PLOT_H)%R.

(** The curve the renderer draws for a segment has 81 points, all in the
    plot box of the segment. *)
Definition seg_curve_ok (s : Segment) : Prop :=
  match s with
  | Flat _ _ _ => True
  | Bell x w c =>
      List.length (bell_points (Q2R x) (Q2R w) (Q2R (intensity c)) 1%R) = 81%nat
      /\ Forall (in_plot_box (Q2R x) (Q2R w))
                (bell_points (Q2R x) (Q2R w) (Q2R (intensity c)) 1%R)
  | ActiveBell x w progress i =>
      List.length (bell_points (Q2R x) (Q2R w) (Q2R i) (Q2R progress)) = 81%nat
      /\ Forall (in_plot_box (Q2R x) (Q2R w))
                (bell_points (Q2R x) (Q2R w) (Q2R i) (Q2R progress))
  end.

(** * Session statistics, badges and the log table *)

(** An array read [contractions[i]] that is not followed by a property
    read: out of range it evaluates to [undefined], here [None]. *)
Definition elem (contractions : list Contraction) (i : Z) : option Contraction :=
  if i <? 0 then None else nth_error contractions (Z.to_nat i).

(** [lastInterval] (lines 180-184): [last && secondLast ? ... : null]. *)
Definition lastInterval (contractions : list Contraction) : option Z :=
  let last := elem contractions (length_ contractions - 1) in
  let secondLast := elem contractions (length_ contractions - 2) in
  match last, secondLast with
  | Some l, Some sl => Some (start l - start sl)
  | _, _ => None
  end.

(** The [met] flags of the Frequency and Duration tiles (lines 326, 333). *)
Definition frequencyMet (avgRecentInterval_ : option Q) : bool :=
  match avgRecentInterval_ with
  | None => false
  | Some v => Qle_bool v (inject_Z FIVE_MIN_MS)
  end.

Definition durationMet (avgRecentDuration_ : option Q) : bool :=
  match avgRecentDuration_ with
  | None => false
  | Some v => Qle_bool (inject_Z ONE_MIN_MS) v
  end.

(** [Math.round] on an exact rational: the nearest integer, halves up. *)
Definition js_round (q : Q) : Z := Qfloor (q + (1 # 2))%Q.

(** The data shown in one row of the log (lines 631-661): the number after
    [#], the event, the text of the Duration cell, the text of the Frequency
    cell ([None] is the dash) and the intensity out of 10.  Colours and the
    formatted clock time are not modelled. *)
Record LogRow : Type := mkLogRow {
  row_number : Z;
  row_c : Contraction;
  row_duration : string;
  row_frequency : option string;
  row_intensity : Z
}.

(** The Frequency cell (line 656): [frequency ? formatDuration(frequency) : dash].
    [null] and [0] are falsy. *)
Definition frequency_cell (frequency : option Z) : option string :=
  match frequency with
  | Some f => if f =? 0 then None else Some (formatDuration f)
  | None => None
  end.

(** The callback of [[...contractions].reverse().map((c, i) => ...)]. *)
Definition log_row (contractions : list Contraction) (c : Contraction) (i : Z)
  : completion LogRow :=
  let originalIndex := length_ contractions - 1 - i in
  frequency <- (if originalIndex =? 0 then Normal None
                else prev <- at_index contractions (originalIndex - 1) ;;
                     Normal (Some (start c - start prev))) ;;
  Normal (mkLogRow (originalIndex + 1) c (formatDuration (duration c))
            (frequency_cell frequency) (js_round (intensity c * 10)%Q)).

Fixpoint map_rows (contractions rest : list Contraction) (i : Z)
  : completion (list LogRow) :=
  match rest with
  | [] => Normal []
  | c :: rest' =>
      r <- log_row contractions c i ;;
      rs <- map_rows contractions rest' (i + 1) ;;
      Normal (r :: rs)
  end.

Definition log_rows (contractions : list Contraction) : completion (list LogRow) :=
  map_rows contractions (rev contractions) 0.

(** What the Frequency cell of event [c] shows, [prev] being the event
    before it: nothing for the first event and for an event that starts at
    the same millisecond as the one before it, and otherwise the formatted
    time since the start of the event before it. *)
Definition since_previous (prev : option Contraction) (c : Contraction)
  : option string :=
  match prev with
  | None => None
  | Some p =>
      if start c - start p =? 0 then None
      else Some (formatDuration (start c - start p))
  end.

(** The rows in chronological order, numbered from [n]. *)
Fixpoint rows_chrono (n : Z) (prev : option Contraction)
    (cs : list Contraction) : list LogRow :=
  match cs with
  | [] => []
  | c :: t =>
      mkLogRow n c (formatDuration (duration c)) (since_previous prev c)
        (js_round (intensity c * 10)%Q)
        :: rows_chrono (n + 1) (Some c) t
  end.

(** Every event starts at most five minutes after the start of the one
    before it. *)
Fixpoint steady (cs : list Contraction) : Prop :=
  match cs with
  | [] => True
  | c :: t =>
      match t with
      | [] => True
      | c' :: _ => start c' - start c <= FIVE_MIN_MS /\ steady t
      end
  end.

(** * The segment builder in binary64 (lines 141-176)

    The same code as [build_segments], with every pixel quantity an IEEE
    double as in the running program, so that sums are rounded and their
    order matters.  Time stamps stay integers: they are below 2^53, where
    the subtraction of doubles is exact and [Z2F] converts exactly. *)

Module B64.

Import PrimFloat.

(** The double that holds the integer [z]. *)
Definition Z2F (z : Z) : float :=
  if z <? 0 then PrimFloat.opp (PrimFloat.of_uint63 (Uint63.of_Z (- z)))
  else PrimFloat.of_uint63 (Uint63.of_Z z).

Definition Y_AXIS_W : float := 44%float.
Definition PX_PER_SEC : float := 4%float.
Definition MIN_REST_PX : float := 32%float.
Definition LEAD_PX : float := 24%float.

(** [Math.max(a, b)]: NaN if either is NaN, and [+0] above [-0]. *)
Definition max (a b : float) : float :=
  if PrimFloat.is_nan a || PrimFloat.is_nan b then PrimFloat.nan
  else if (a =? b)%float
       then (if PrimFloat.is_zero a then (a + b)%float else a)
       else if (a <? b)%float then b else a.

(** [secPx(ms) = (ms / 1000) * PX_PER_SEC] *)
Definition secPx (ms : Z) : float := (Z2F ms / 1000 * PX_PER_SEC)%float.

Inductive Segment : Type :=
| Flat (x widthPx : float) (label : option string)
| Bell (x widthPx : float) (c : Contraction)
| ActiveBell (x widthPx : float) (progress : float) (inten : float).

Definition seg_x (s : Segment) : float :=
  match s with
  | Flat x _ _ => x
  | Bell x _ _ => x
  | ActiveBell x _ _ _ => x
  end.

Definition seg_widthPx (s : Segment) : float :=
  match s with
  | Flat _ w _ => w
  | Bell _ w _ => w
  | ActiveBell _ w _ _ => w
  end.

Record Builder : Type := mkBuilder {
  segments : list Segment;
  cursor : float
}.

Definition push (b : Builder) (s : Segment) : Builder :=
  mkBuilder (segments b ++ [s]) (cursor b).

(** [cursor += w] *)
Definition advance (b : Builder) (w : float) : Builder :=
  mkBuilder (segments b) (cursor b + w)%float.

(** The callback of [contractions.forEach((c, i) => ...)] (lines 148-158). *)
Definition forEach_body (contractions : list Contraction)
    (c : Contraction) (i : Z) (b : Builder) : completion Builder :=
  b1 <- (if 0 <? i then
           prev <- at_index contractions (i - 1) ;;
           let restMs := start c - end_ prev in
           let restPx := max MIN_REST_PX (secPx restMs) in
           Normal (advance
                     (push b (Flat (cursor b) restPx (Some (formatDuration restMs))))
                     restPx)
         else Normal b) ;;
  let bellPx := max 8%float (secPx (duration c)) in
  Normal (advance (push b1 (Bell (cursor b1) bellPx c)) bellPx).

Fixpoint forEach (contractions rest : list Contraction) (i : Z) (b : Builder)
  : completion Builder :=
  match rest with
  | [] => Normal b
  | c :: rest' =>
      b' <- forEach_body contractions c i b ;;
      forEach contractions rest' (i + 1) b'
  end.

(** The [if (activeStart) { ... }] block (lines 160-171). *)
Definition active_block (contractions : list Contraction) (activeStart : option Z)
    (now : Z) (intensitySetting : Z) (b : Builder) : completion Builder :=
  match activeStart with
  | Some a =>
      if truthy activeStart then
        let elapsedMs := now - a in
        b1 <- (if 0 <? length_ contractions then
                 lastc <- at_index contractions (length_ contractions - 1) ;;
                 let restMs := a - end_ lastc in
                 let restPx := max MIN_REST_PX (secPx restMs) in
                 Normal (advance (push b (Flat (cursor b) restPx None)) restPx)
               else Normal b) ;;
        let activePx := max 8%float (secPx elapsedMs) in
        Normal (advance
                  (push b1 (ActiveBell (cursor b1) activePx 1%float
                              (Z2F intensitySetting / 10)%float))
                  activePx)
      else Normal b
  | None => Normal b
  end.

(** The whole block: the array [segments] and [svgWidth]. *)
Definition build_segments (contractions : list Contraction)
    (activeStart : option Z) (now : Z) (intensitySetting : Z)
  : completion (list Segment * float) :=
  let b0 := mkBuilder [] (Y_AXIS_W + 8)%float in
  let b1 := push b0 (Flat (cursor b0 - LEAD_PX)%float LEAD_PX None) in
  b2 <- forEach contractions contractions 0 b1 ;;
  b3 <- active_block contractions activeStart now intensitySetting b2 ;;
  let b4 := advance (push b3 (Flat (cursor b3) LEAD_PX None)) LEAD_PX in
  Normal (segments b4, cursor b4).

(** The widths of [l] added one after the other onto [x0], left to right. *)
Definition running_sum (x0 : float) (l : list Segment) : float :=
  fold_left (fun acc s => (acc + seg_widthPx s)%float) l x0.

(** The widths of [l] summed on their own, left to right from 0. *)
Definition sum_widths (l : list Segment) : float := running_sum 0%float l.

(** One push followed by the matching advance. *)
Definition emit (b : Builder) (s : Segment) : Builder :=
  advance (push b s) (seg_widthPx s).

Fixpoint emit_all (b : Builder) (l : list Segment) : Builder :=
  match l with
  | [] => b
  | s :: t => emit_all (emit b s) t
  end.

End B64.

(** One stored event of 3001 ms. *)
Definition event_3001 : list Contraction :=
  [mkContraction 1000 1000 4001 3001 (5 # 10)].

(** * Properties *)

(** ** Index lookups *)

Lemma at_index_in_range (cs : list Contraction) (i : Z) :
  0 <= i < length_ cs ->
  exists c, at_index cs i = Normal c /\ nth_error cs (Z.to_nat i) = Some c.
Proof.
  intros Hi. unfold at_index, length_ in *.
  destruct (Z.ltb_spec i 0) as [Hneg|_]; [lia|].
  destruct (nth_error cs (Z.to_nat i)) as [c|] eqn:E.
  - exists c. split; reflexivity.
  - apply nth_error_None in E. lia.
Qed.

Lemma at_index_app_last (pre : list Contraction) (c : Contraction)
    (rest : list Contraction) :
  at_index (pre ++ c :: rest) (length_ pre) = Normal c.
Proof.
  unfold at_index, length_.
  destruct (Z.ltb_spec (Z.of_nat (List.length pre)) 0) as [Hneg|_]; [lia|].
  rewrite Nat2Z.id, nth_error_app2 by lia.
  rewrite Nat.sub_diag. reflexivity.
Qed.

Lemma list_nil_or_snoc {A : Type} (l : list A) :
  l = [] \/ exists l' a, l = l' ++ [a].
Proof.
  destruct l as [|h t]; [left; reflexivity|right].
  destruct (exists_last (l := h :: t)) as [l' [a E]]; [discriminate|].
  exists l', a. exact E.
Qed.

(** ** The segment builder *)

Lemma sum_widths_app (l : list Segment) (s : Segment) :
  (sum_widths (l ++ [s]) == sum_widths l + seg_widthPx s)%Q.
Proof.
  induction l as [|h t IH]; simpl.
  - ring.
  - rewrite IH. ring.
Qed.

(** [forEach_body] succeeds on every in-range index and is a sequence of
    at most two emits. *)
Lemma forEach_body_shape (pre : list Contraction) (c : Contraction)
    (rest : list Contraction) (b : Builder) :
  let cs := pre ++ c :: rest in
  let bellPx := Qmax MIN_BELL_PX (secPx (duration c)) in
  (pre = [] /\
   forEach_body cs c (length_ pre) b = Normal (emit b (Bell (cursor b) bellPx c)))
  \/
  (exists pre' prev,
      pre = pre' ++ [prev] /\
      let restMs := start c - end_ prev in
      let restPx := Qmax MIN_REST_PX (secPx restMs) in
      let b1 := emit b (Flat (cursor b) restPx (Some (formatDuration restMs))) in
      forEach_body cs c (length_ pre) b
      = Normal (emit b1 (Bell (cursor b1) bellPx c))).
Proof.
  intros cs bellPx.
  destruct (list_nil_or_snoc pre) as [->|[pre' [prev ->]]].
  - left. split; [reflexivity|]. reflexivity.
  - right. exists pre', prev. split; [reflexivity|].
    unfold forEach_body, cs.
    assert (Hlen : length_ (pre' ++ [prev]) = length_ pre' + 1).
    { unfold length_. rewrite length_app. simpl. lia. }
    rewrite Hlen.
    destruct (Z.ltb_spec 0 (length_ pre' + 1)) as [_|Hbad];
      [|unfold length_ in Hbad; lia].
    replace (length_ pre' + 1 - 1) with (length_ pre') by lia.
    rewrite <- app_assoc. simpl app.
    rewrite at_index_app_last. reflexivity.
Qed.

Lemma segments_emit_all (l : list Segment) :
  forall b, segments (emit_all b l) = segments b ++ l.
Proof.
  induction l as [|s t IH]; intros b; simpl.
  - now rewrite app_nil_r.
  - rewrite IH. simpl. now rewrite <- app_assoc.
Qed.

Lemma cursor_emit_all (l : list Segment) :
  forall b, (cursor (emit_all b l) == cursor b + sum_widths l)%Q.
Proof.
  induction l as [|s t IH]; intros b; simpl.
  - ring.
  - rewrite IH. simpl. ring.
Qed.

Lemma emit_all_app (l1 l2 : list Segment) :
  forall b, emit_all b (l1 ++ l2) = emit_all (emit_all b l1) l2.
Proof.
  induction l1 as [|s t IH]; intros b; simpl; [reflexivity|apply IH].
Qed.

Lemma forEach_emits (rest : list Contraction) :
  forall (pre : list Contraction) (b : Builder),
  exists l,
    forEach (pre ++ rest) rest (length_ pre) b = Normal (emit_all b l)
    /\ Forall (fun s => mid_ok s /\ seg_active s = false) l.
Proof.
  induction rest as [|c rest' IH]; intros pre b.
  - exists []. split; [reflexivity|constructor].
  - simpl forEach.
    assert (Hlen : length_ pre + 1 = length_ (pre ++ [c])).
    { unfold length_. rewrite length_app. simpl. lia. }
    assert (Hcs : pre ++ c :: rest' = (pre ++ [c]) ++ rest').
    { rewrite <- app_assoc. reflexivity. }
    destruct (forEach_body_shape pre c rest' b) as [[_ E]|[pre' [prev [_ E]]]];
      cbv zeta in E; rewrite E; simpl bind; rewrite Hlen, Hcs.
    + destruct (IH (pre ++ [c])
                  (emit b (Bell (cursor b)
                             (Qmax MIN_BELL_PX (secPx (duration c))) c)))
        as [l [El Hl]].
      exists (Bell (cursor b) (Qmax MIN_BELL_PX (secPx (duration c))) c :: l).
      split; [exact El|].
      constructor; [|exact Hl].
      split; [apply Q.le_max_l|reflexivity].
    + match goal with
      | |- context [forEach _ _ _ (emit (emit b ?g) ?bl)] =>
          destruct (IH (pre ++ [c]) (emit (emit b g) bl)) as [l [El Hl]];
          exists (g :: bl :: l)
      end.
      split; [exact El|].
      constructor; [split; [apply Q.le_max_l|reflexivity]|].
      constructor; [split; [apply Q.le_max_l|reflexivity]|exact Hl].
Qed.

Lemma active_block_emits (cs : list Contraction) (a : option Z) (now k : Z)
    (b : Builder) :
  exists l,
    active_block cs a now k b = Normal (emit_all b l)
    /\ Forall mid_ok l
    /\ (truthy a = false -> l = [])
    /\ (truthy a = true ->
        exists l' x w,
          l = l' ++ [ActiveBell x w 1%Q (inject_Z k / 10)%Q]
          /\ Forall (fun s => seg_active s = false) l').
Proof.
  unfold active_block.
  destruct a as [t|]; [|exists []; repeat split; try constructor; discriminate].
  destruct (truthy (Some t)) eqn:Ht;
    [|exists []; repeat split; try constructor; discriminate].
  destruct (Z.ltb_spec 0 (length_ cs)) as [Hpos|Hzero].
  - destruct (at_index_in_range cs (length_ cs - 1)) as [lastc [E _]]; [lia|].
    rewrite E. simpl bind.
    match goal with
    | |- context [Normal (advance (push (advance (push b ?g) _) ?ab) _)] =>
        exists [g; ab]
    end.
    split; [reflexivity|].
    split; [repeat constructor; apply Q.le_max_l|].
    split; [discriminate|]. intros _.
    eexists [_], _, _. split; [reflexivity|]. repeat constructor.
  - simpl bind.
    match goal with
    | |- context [Normal (advance (push b ?ab) _)] => exists [ab]
    end.
    split; [reflexivity|].
    split; [repeat constructor; apply Q.le_max_l|].
    split; [discriminate|]. intros _.
    eexists [], _, _. split; [reflexivity|]. constructor.
Qed.

(** The array the builder returns: the leading margin, the segments of the
    stored contractions, the segments of the contraction in progress, the
    trailing margin; [svgWidth] is the cursor after the trailing margin. *)
Lemma build_segments_structure (cs : list Contraction) (a : option Z)
    (now k : Z) :
  exists done_ live xt W,
    build_segments cs a now k
    = Normal (Flat (Y_AXIS_W + 8 - LEAD_PX) LEAD_PX None
                :: done_ ++ live ++ [Flat xt LEAD_PX None], W)
    /\ (W == Y_AXIS_W + 8 + sum_widths (done_ ++ live) + LEAD_PX)%Q
    /\ (xt == W - LEAD_PX)%Q
    /\ Forall (fun s => mid_ok s /\ seg_active s = false) done_
    /\ Forall mid_ok live
    /\ (truthy a = false -> live = [])
    /\ (truthy a = true ->
        exists l' x w,
          live = l' ++ [ActiveBell x w 1%Q (inject_Z k / 10)%Q]
          /\ Forall (fun s => seg_active s = false) l').
Proof.
  unfold build_segments. cbv zeta.
  set (b1 := push _ _).
  destruct (forEach_emits cs [] b1) as [done_ [E1 H1]].
  simpl app in E1. change (length_ []) with 0 in E1. rewrite E1. simpl bind.
  destruct (active_block_emits cs a now k (emit_all b1 done_))
    as [live [E2 [H2 [H3 H4]]]].
  rewrite E2. simpl bind.
  exists done_, live, (cursor (emit_all (emit_all b1 done_) live)),
    (cursor (emit_all (emit_all b1 done_) live) + LEAD_PX)%Q.
  split.
  - f_equal. f_equal. simpl segments.
    rewrite !segments_emit_all. unfold b1. simpl.
    now rewrite <- app_assoc.
  - split.
    + rewrite <- emit_all_app, cursor_emit_all. unfold b1. simpl. ring.
    + split; [ring|]. repeat split; assumption.
Qed.

Lemma sum_widths_app2 (l1 l2 : list Segment) :
  (sum_widths (l1 ++ l2) == sum_widths l1 + sum_widths l2)%Q.
Proof.
  induction l1 as [|h t IH]; simpl.
  - ring.
  - rewrite IH. ring.
Qed.

Lemma mid_ok_width (s : Segment) : mid_ok s -> (MIN_BELL_PX <= seg_widthPx s)%Q.
Proof.
  destruct s; simpl; unfold MIN_REST_PX, MIN_BELL_PX; intros H; qlra.
Qed.

Lemma sum_widths_nonneg (l : list Segment) :
  Forall mid_ok l -> (0 <= sum_widths l)%Q.
Proof.
  induction 1 as [|s t Hs _ IH]; simpl.
  - qlra.
  - apply mid_ok_width in Hs. unfold MIN_BELL_PX in Hs. qlra.
Qed.

(** [svgWidth] is never less than the two margins after the axis inset. *)
Lemma svgWidth_lower_bound (cs : list Contraction) (a : option Z) (now k : Z) :
  exists segs W,
    build_segments cs a now k = Normal (segs, W)
    /\ (Y_AXIS_W + 8 + LEAD_PX <= W)%Q.
Proof.
  destruct (build_segments_structure cs a now k)
    as [done_ [live [xt [W [E [HW [_ [Hd [Hl _]]]]]]]]].
  eexists _, W. split; [exact E|].
  assert (Hmid : Forall mid_ok (done_ ++ live)).
  { apply Forall_app. split; [|exact Hl].
    eapply Forall_impl; [|exact Hd]. intros s [Hs _]. exact Hs. }
  apply sum_widths_nonneg in Hmid.
  rewrite HW. qlra.
Qed.

(** ** The pan offset *)

Lemma Qpos_bool_true (q : Q) : Qpos_bool q = true <-> (0 < q)%Q.
Proof.
  unfold Qpos_bool. rewrite negb_true_iff.
  destruct (Qle_bool q 0) eqn:E.
  - apply Qle_bool_iff in E. split; [discriminate|intros H; qlra].
  - split; [intros _|reflexivity].
    apply Qnot_le_lt. intros H. apply Qle_bool_iff in H. congruence.
Qed.

Lemma effectiveContainerWidth_measured (cw W : Q) :
  (0 < cw)%Q -> effectiveContainerWidth cw W = cw.
Proof.
  intros H. unfold effectiveContainerWidth.
  apply Qpos_bool_true in H. now rewrite H.
Qed.

Lemma effectiveContainerWidth_unmeasured (cw W : Q) :
  (cw <= 0)%Q -> effectiveContainerWidth cw W = W.
Proof.
  intros H. unfold effectiveContainerWidth.
  destruct (Qpos_bool cw) eqn:E; [|reflexivity].
  apply Qpos_bool_true in E. qlra.
Qed.

(** The code's [Math.max(lo, Math.min(0, v))] is the clamp of [v] to
    [lo, 0] as soon as [lo <= 0]. *)
Lemma max_min_is_clamp (v lo : Q) :
  (lo <= 0)%Q -> (Qmax lo (Qmin 0 v) == clamp_spec v lo 0)%Q.
Proof.
  intros Hlo. unfold clamp_spec.
  destruct (Q.max_spec lo (Qmin 0 v)) as [[H1 ->]|[H1 ->]];
    destruct (Q.min_spec 0 v) as [[H2 H3]|[H2 H3]];
    rewrite H3 in *;
    destruct (Qlt_le_dec v lo); try destruct (Qlt_le_dec 0 v); qlra.
Qed.

(** [panX] on an extent that is at least the axis width. *)
Lemma panX_bounds (liveScroll : bool) (cw W : Q) :
  (Y_AXIS_W <= W)%Q ->
  (- (W - Y_AXIS_W) <= panX liveScroll cw W)%Q /\ (panX liveScroll cw W <= 0)%Q.
Proof.
  intros HW. unfold panX. destruct liveScroll; [|qlra].
  set (v := (effectiveContainerWidth cw W - W)%Q).
  destruct (Q.max_spec (- (W - Y_AXIS_W)) (Qmin 0 v)) as [[H1 ->]|[H1 ->]];
    destruct (Q.min_spec 0 v) as [[H2 H3]|[H2 H3]]; rewrite H3 in *; qlra.
Qed.

Lemma panX_fits (cw W : Q) :
  (Y_AXIS_W <= W)%Q -> (W <= effectiveContainerWidth cw W)%Q ->
  (panX true cw W == 0)%Q.
Proof.
  intros HW Hfit. unfold panX.
  set (v := (effectiveContainerWidth cw W - W)%Q).
  assert (Hv : (0 <= v)%Q) by (unfold v; qlra).
  destruct (Q.max_spec (- (W - Y_AXIS_W)) (Qmin 0 v)) as [[H1 ->]|[H1 ->]];
    destruct (Q.min_spec 0 v) as [[H2 H3]|[H2 H3]]; rewrite H3 in *; qlra.
Qed.

(** ** Claims on the segment builder *)

(** C1 (as stated, refuted).  With no contraction and none in progress the
    builder returns the two margins, whose widths sum to 48, and
    [svgWidth = 76]: the sum of the widths is not the total extent. *)
Lemma C1_sum_is_not_svgWidth :
  build_segments [] None 0 5
  = Normal ([Flat 28%Q 24%Q None; Flat 52%Q 24%Q None], 76%Q)
  /\ (sum_widths [Flat 28%Q 24%Q None; Flat 52%Q 24%Q None] == 48)%Q
  /\ ~ (sum_widths [Flat 28%Q 24%Q None; Flat 52%Q 24%Q None] == 76)%Q.
Proof.
  split; [reflexivity|]. split; [reflexivity|].
  intros H. vm_compute in H. discriminate H.
Qed.

Section Binary64.

Import PrimFloat.

Lemma b64_emit_all_app (l1 l2 : list B64.Segment) :
  forall b, B64.emit_all b (l1 ++ l2) = B64.emit_all (B64.emit_all b l1) l2.
Proof.
  induction l1 as [|s t IH]; intros b; [reflexivity|apply IH].
Qed.

Lemma b64_emit_all_segments (l : list B64.Segment) :
  forall b, B64.segments (B64.emit_all b l) = B64.segments b ++ l.
Proof.
  induction l as [|s t IH]; intros b; simpl.
  - now rewrite app_nil_r.
  - rewrite IH. simpl. now rewrite <- app_assoc.
Qed.

(** The cursor after a run of emits is the running sum of their widths
    from the cursor before it: the same additions in the same order. *)
Lemma b64_emit_all_cursor (l : list B64.Segment) :
  forall b, B64.cursor (B64.emit_all b l) = B64.running_sum (B64.cursor b) l.
Proof.
  induction l as [|s t IH]; intros b; [reflexivity|].
  simpl B64.emit_all. rewrite IH. reflexivity.
Qed.

Lemma b64_forEach_emits (rest : list Contraction) :
  forall (pre : list Contraction) (b : B64.Builder),
  exists l,
    B64.forEach (pre ++ rest) rest (length_ pre) b = Normal (B64.emit_all b l).
Proof.
  induction rest as [|c rest' IH]; intros pre b.
  - exists []. reflexivity.
  - simpl B64.forEach.
    assert (Hlen : length_ pre + 1 = length_ (pre ++ [c])).
    { unfold length_. rewrite length_app. simpl. lia. }
    assert (Hcs : pre ++ c :: rest' = (pre ++ [c]) ++ rest').
    { rewrite <- app_assoc. reflexivity. }
    rewrite Hlen. unfold B64.forEach_body.
    destruct (list_nil_or_snoc pre) as [->|[pre' [prev ->]]].
    + change (length_ []) with 0. simpl bind.
      match goal with
      | |- context [B64.forEach _ _ _ (B64.advance (B64.push b ?s) _)] =>
          destruct (IH [c] (B64.emit b s)) as [l El]; exists (s :: l)
      end.
      exact El.
    + assert (Hl : length_ (pre' ++ [prev]) = length_ pre' + 1).
      { unfold length_. rewrite length_app. simpl. lia. }
      rewrite Hl.
      destruct (Z.ltb_spec 0 (length_ pre' + 1)) as [_|Hbad];
        [|unfold length_ in Hbad; lia].
      replace (length_ pre' + 1 - 1) with (length_ pre') by lia.
      assert (Eprev : at_index ((pre' ++ [prev]) ++ c :: rest') (length_ pre')
                      = Normal prev).
      { rewrite <- app_assoc. apply at_index_app_last. }
      rewrite Eprev. cbn [bind].
      rewrite Hcs.
      match goal with
      | |- context [B64.forEach _ _ _
                      (B64.advance
                         (B64.push (B64.advance (B64.push b ?g) _) ?s) _)] =>
          destruct (IH ((pre' ++ [prev]) ++ [c]) (B64.emit (B64.emit b g) s))
            as [l El];
          exists (g :: s :: l)
      end.
      exact El.
Qed.

Lemma b64_active_block_emits (cs : list Contraction) (a : option Z)
    (now k : Z) (b : B64.Builder) :
  exists l, B64.active_block cs a now k b = Normal (B64.emit_all b l).
Proof.
  unfold B64.active_block.
  destruct a as [t|]; [|exists []; reflexivity].
  destruct (truthy (Some t)); [|exists []; reflexivity].
  destruct (Z.ltb_spec 0 (length_ cs)) as [Hpos|Hzero].
  - destruct (at_index_in_range cs (length_ cs - 1)) as [lastc [E _]]; [lia|].
    rewrite E. cbn [bind].
    match goal with
    | |- context [Normal (B64.advance
                            (B64.push (B64.advance (B64.push b ?g) _) ?s) _)] =>
        exists [g; s]
    end.
    reflexivity.
  - cbn [bind].
    match goal with
    | |- context [Normal (B64.advance (B64.push b ?s) _)] => exists [s]
    end.
    reflexivity.
Qed.

(** C1 (amended).  In the program's own binary64 arithmetic, for every
    history, optional contraction in progress, clock value and intensity
    setting: the builder returns normally, its leading margin is at
    [x = 28], and adding the [widthPx] of the segments one after the other,
    in the order they were emitted, onto that [x] gives [svgWidth] exactly.
    The additions are the ones the cursor performs, so no rounding error
    separates the two. *)
Theorem C1_running_sum_svgWidth (cs : list Contraction) (a : option Z)
    (now k : Z) :
  exists lead rest W,
    B64.build_segments cs a now k = Normal (lead :: rest, W)
    /\ B64.seg_x lead = 28%float
    /\ B64.running_sum (B64.seg_x lead) (lead :: rest) = W.
Proof.
  unfold B64.build_segments. cbv zeta.
  set (lead := B64.Flat _ B64.LEAD_PX None).
  set (b1 := B64.push _ lead).
  destruct (b64_forEach_emits cs [] b1) as [l1 E1].
  simpl app in E1. change (length_ []) with 0 in E1. rewrite E1. cbn [bind].
  destruct (b64_active_block_emits cs a now k (B64.emit_all b1 l1)) as [l2 E2].
  rewrite E2. cbn [bind].
  set (b3 := B64.emit_all (B64.emit_all b1 l1) l2).
  set (trail := B64.Flat (B64.cursor b3) B64.LEAD_PX None).
  change (B64.advance (B64.push b3 trail) B64.LEAD_PX) with (B64.emit b3 trail).
  assert (Hb4 : B64.emit b3 trail = B64.emit_all b1 (l1 ++ l2 ++ [trail])).
  { unfold b3. rewrite !b64_emit_all_app. reflexivity. }
  rewrite Hb4.
  exists lead, (l1 ++ l2 ++ [trail]),
    (B64.cursor (B64.emit_all b1 (l1 ++ l2 ++ [trail]))).
  split; [|split].
  - rewrite b64_emit_all_segments. reflexivity.
  - reflexivity.
  - rewrite b64_emit_all_cursor. reflexivity.
Qed.

(** With one stored event of 3001 ms the running sum from 28 is [svgWidth],
    while the widths summed on their own and [svgWidth - 28] differ in the
    last place: the order of the additions matters. *)
Example b64_sum_order_matters :
  exists segs W,
    B64.build_segments event_3001 None 0 5 = Normal (segs, W)
    /\ B64.running_sum 28%float segs = W
    /\ (B64.sum_widths segs <? W - 28)%float = true.
Proof.
  eexists _, _. split; [reflexivity|]. split; reflexivity.
Qed.

Example b64_empty_session :
  B64.build_segments [] None 0 5
  = Normal ([B64.Flat 28%float 24%float None; B64.Flat 52%float 24%float None],
            76%float).
Proof. reflexivity. Qed.

End Binary64.

Example segments_one_event_in_progress :
  build_segments [mkContraction 1000 1000 61000 60000 (5 # 10)]
                 (Some 100000) 110000 7
  = Normal ([ Flat 28%Q 24%Q None;
              Bell 52%Q (Qmax 8 (secPx 60000))
                   (mkContraction 1000 1000 61000 60000 (5 # 10));
              Flat (52 + Qmax 8 (secPx 60000))%Q (Qmax 32 (secPx 39000)) None;
              ActiveBell (52 + Qmax 8 (secPx 60000) + Qmax 32 (secPx 39000))%Q
                         (Qmax 8 (secPx 10000)) 1%Q (inject_Z 7 / 10)%Q;
              Flat (52 + Qmax 8 (secPx 60000) + Qmax 32 (secPx 39000)
                    + Qmax 8 (secPx 10000))%Q 24%Q None ],
            (52 + Qmax 8 (secPx 60000) + Qmax 32 (secPx 39000)
             + Qmax 8 (secPx 10000) + 24)%Q).
Proof. reflexivity. Qed.

Example svgWidth_one_event_in_progress :
  exists segs W,
    build_segments [mkContraction 1000 1000 61000 60000 (5 # 10)]
                   (Some 100000) 110000 7 = Normal (segs, W)
    /\ (W == 512)%Q /\ (sum_widths segs == 484)%Q.
Proof.
  eexists _, _. split; [reflexivity|]. split; reflexivity.
Qed.

(** C7 (as stated, refuted).  The leading margin is a flat segment of the
    returned array and its width, 24, is below [MIN_REST_PX = 32]. *)
Lemma C7_margin_below_min_gap :
  exists segs W s,
    build_segments [] None 0 5 = Normal (segs, W)
    /\ In s segs
    /\ seg_type s = flat
    /\ ~ (MIN_REST_PX <= seg_widthPx s)%Q.
Proof.
  exists [Flat 28%Q 24%Q None; Flat 52%Q 24%Q None], 76%Q, (Flat 28%Q 24%Q None).
  split; [reflexivity|]. split; [left; reflexivity|]. split; [reflexivity|].
  simpl. unfold MIN_REST_PX. intros H. qlra.
Qed.

(** C7 (amended).  The returned array is a leading margin, a middle part and
    a trailing margin.  Both margins are flat and exactly [LEAD_PX = 24]
    wide; in the middle part every flat segment is at least [MIN_REST_PX = 32]
    wide, and every bump of the array is at least 8 wide, whatever the sign
    of the time differences. *)
Theorem C7_width_lower_bounds (cs : list Contraction) (a : option Z)
    (now k : Z) :
  exists xl mid xt W,
    build_segments cs a now k
    = Normal (Flat xl LEAD_PX None :: mid ++ [Flat xt LEAD_PX None], W)
    /\ Forall mid_ok mid
    /\ Forall bump_ok (Flat xl LEAD_PX None :: mid ++ [Flat xt LEAD_PX None]).
Proof.
  destruct (build_segments_structure cs a now k)
    as [done_ [live [xt [W [E [_ [_ [Hd [Hl _]]]]]]]]].
  exists (Y_AXIS_W + 8 - LEAD_PX)%Q, (done_ ++ live), xt, W.
  rewrite <- app_assoc. split; [exact E|].
  assert (Hmid : Forall mid_ok (done_ ++ live)).
  { apply Forall_app. split; [|exact Hl].
    eapply Forall_impl; [|exact Hd]. intros s [Hs _]. exact Hs. }
  split; [exact Hmid|].
  constructor; [exact I|].
  rewrite app_assoc. apply Forall_app. split.
  - eapply Forall_impl; [|exact Hmid].
    intros s Hs. destruct s; simpl in *; [exact I|exact Hs|exact Hs].
  - constructor; [exact I|constructor].
Qed.

(** C6.  For every state of the component, with [svgWidth] the extent the
    builder returns: in follow mode the offset is the clamp of
    [viewport - svgWidth] to [-(svgWidth - Y_AXIS_W), 0], the viewport being
    [containerWidth] once measured and [svgWidth] before; so it is at most 0,
    at least [-(svgWidth - Y_AXIS_W)], and 0 when the content fits or the
    viewport is unmeasured; out of follow mode it is 0. *)
Theorem C6_pan_offset (cs : list Contraction) (a : option Z) (now k : Z)
    (cw : Q) :
  exists segs W,
    build_segments cs a now k = Normal (segs, W)
    /\ (panX true cw W
        == clamp_spec (effectiveContainerWidth cw W - W) (- (W - Y_AXIS_W)) 0)%Q
    /\ ((0 < cw)%Q ->
        (panX true cw W == clamp_spec (cw - W) (- (W - Y_AXIS_W)) 0)%Q)
    /\ (panX true cw W <= 0)%Q
    /\ (- (W - Y_AXIS_W) <= panX true cw W)%Q
    /\ ((W <= cw)%Q -> (panX true cw W == 0)%Q)
    /\ ((cw == 0)%Q ->
        effectiveContainerWidth cw W = W /\ (panX true cw W == 0)%Q)
    /\ panX false cw W = 0%Q.
Proof.
  destruct (svgWidth_lower_bound cs a now k) as [segs [W [E HW]]].
  exists segs, W. split; [exact E|].
  assert (Hax : (Y_AXIS_W <= W)%Q) by (unfold Y_AXIS_W, LEAD_PX in *; qlra).
  assert (Hlo : (- (W - Y_AXIS_W) <= 0)%Q) by qlra.
  split; [apply max_min_is_clamp; exact Hlo|].
  split.
  { intros Hcw.
    rewrite <- (effectiveContainerWidth_measured cw W Hcw) at 2.
    apply max_min_is_clamp; exact Hlo. }
  destruct (panX_bounds true cw W Hax) as [Hge Hle].
  split; [exact Hle|]. split; [exact Hge|].
  split.
  { intros Hfit. apply panX_fits; [exact Hax|].
    rewrite effectiveContainerWidth_measured; [exact Hfit|].
    unfold Y_AXIS_W, LEAD_PX in *. qlra. }
  split; [|reflexivity].
  intros Hz.
  assert (Heff : effectiveContainerWidth cw W = W)
    by (apply effectiveContainerWidth_unmeasured; qlra).
  split; [exact Heff|].
  apply panX_fits; [exact Hax|]. rewrite Heff. qlra.
Qed.

(** ** The streak evaluator *)

Lemma at_index_nat (cs : list Contraction) (i : nat) (c : Contraction) :
  nth_error cs i = Some c -> at_index cs (Z.of_nat i) = Normal c.
Proof.
  intros E. unfold at_index.
  destruct (Z.ltb_spec (Z.of_nat i) 0) as [Hneg|_]; [lia|].
  now rewrite Nat2Z.id, E.
Qed.

Lemma nth_error_in_range {A : Type} (l : list A) (i : nat) :
  (i < List.length l)%nat -> exists x, nth_error l i = Some x.
Proof.
  intros H. destruct (nth_error l i) as [x|] eqn:E; [now exists x|].
  apply nth_error_None in E. lia.
Qed.

Lemma included_step_iff (cs : list Contraction) (i : nat)
    (cur next : Contraction) :
  nth_error cs i = Some cur -> nth_error cs (S i) = Some next ->
  included_step cs i
  <-> (ONE_MIN_MS <= duration cur /\ start next - start cur <= FIVE_MIN_MS).
Proof.
  intros Ecur Enext. split.
  - intros [c [n [Ec [En [Hq Ht]]]]].
    rewrite Ecur in Ec. rewrite Enext in En.
    injection Ec as <-. injection En as <-.
    split; assumption.
  - intros [Hq Ht]. exists cur, next. repeat split; assumption.
Qed.

(** What the backward loop returns when it is entered with
    [streakBegin = k]: an index [j <= k] such that every step from [k] down
    to [j] was allowed, and the step below [j] is not (or [j] is 0). *)
Lemma streak_loop_spec (cs : list Contraction) :
  forall k : nat,
    (k < List.length cs)%nat ->
    exists j : nat,
      (j <= k)%nat
      /\ streak_loop cs k (Z.of_nat k) = Normal (Z.of_nat j)
      /\ (forall i, (j <= i < k)%nat -> included_step cs i)
      /\ (j = O \/ ~ included_step cs (j - 1)).
Proof.
  induction k as [|k IH]; intros Hk.
  - exists O. repeat split; [lia| |left; reflexivity]. intros i Hi. lia.
  - destruct (nth_error_in_range cs (S k) Hk) as [next Enext].
    destruct (nth_error_in_range cs k) as [cur Ecur]; [lia|].
    pose proof (included_step_iff cs k cur next Ecur Enext) as Hiff.
    simpl streak_loop.
    replace (Z.of_nat k + 1) with (Z.of_nat (S k)) by lia.
    rewrite (at_index_nat _ _ _ Enext), (at_index_nat _ _ _ Ecur).
    simpl bind.
    destruct ((ONE_MIN_MS <=? duration cur)
              && (start next - start cur <=? FIVE_MIN_MS)) eqn:Etest.
    + apply andb_true_iff in Etest. rewrite !Z.leb_le in Etest.
      destruct IH as [j [Hj [E [Hall Hstop]]]]; [lia|].
      exists j. split; [lia|]. split; [exact E|]. split; [|exact Hstop].
      intros i Hrange.
      destruct (Nat.eq_dec i k) as [->|Hne]; [|apply Hall; lia].
      apply Hiff. exact Etest.
    + apply andb_false_iff in Etest. rewrite !Z.leb_gt in Etest.
      exists (S k). split; [lia|]. split; [reflexivity|].
      split; [intros i Hrange; lia|]. right.
      replace (S k - 1)%nat with k by lia.
      rewrite Hiff. lia.
Qed.

(** C2.  On a non-empty history [pre ++ [lastc]]: when the most recent
    event lasts less than one minute the evaluator returns [null]; otherwise
    it returns the [start] of the event at an index [j] such that every
    backward step from the most recent event down to [j] is onto an event of
    at least one minute whose successor starts at most five minutes after it,
    and either [j] is the beginning of the history or the step below [j] fails
    one of the two tests. *)
Theorem C2_streak_start (pre : list Contraction) (lastc : Contraction) :
  let cs := pre ++ [lastc] in
  (duration lastc < ONE_MIN_MS -> qualifyingStreakStart cs = Normal None)
  /\ (ONE_MIN_MS <= duration lastc ->
      exists (j : nat) (first : Contraction),
        (j < List.length cs)%nat
        /\ nth_error cs j = Some first
        /\ qualifyingStreakStart cs = Normal (Some (start first))
        /\ (forall i, (j <= i < List.length cs - 1)%nat -> included_step cs i)
        /\ (j = O \/ ~ included_step cs (j - 1))).
Proof.
  intros cs.
  assert (Hlen : length_ cs = Z.of_nat (List.length pre) + 1).
  { unfold cs, length_. rewrite length_app. simpl. lia. }
  assert (Hlast : at_index cs (length_ cs - 1) = Normal lastc).
  { replace (length_ cs - 1) with (length_ pre) by (unfold length_ in *; lia).
    apply at_index_app_last. }
  unfold qualifyingStreakStart.
  destruct (Z.leb_spec 1 (length_ cs)) as [_|Hbad]; [|lia].
  rewrite Hlast. simpl bind.
  split; intros Hdur.
  - destruct (Z.leb_spec ONE_MIN_MS (duration lastc)) as [H|_]; [lia|reflexivity].
  - destruct (Z.leb_spec ONE_MIN_MS (duration lastc)) as [_|H]; [|lia].
    assert (Hk : Z.to_nat (length_ cs - 1) = List.length pre) by lia.
    assert (Hn : List.length cs = S (List.length pre)).
    { unfold cs. rewrite length_app. simpl. lia. }
    destruct (streak_loop_spec cs (List.length pre)) as [j [Hj [E [Hall Hstop]]]];
      [lia|].
    destruct (nth_error_in_range cs j) as [first Efirst]; [lia|].
    exists j, first. split; [lia|]. split; [exact Efirst|].
    split.
    + rewrite Hk.
      replace (length_ cs - 1) with (Z.of_nat (List.length pre)) by lia.
      rewrite E. simpl bind. rewrite (at_index_nat _ _ _ Efirst). reflexivity.
    + split; [|exact Hstop].
      intros i Hi. apply Hall. lia.
Qed.

Example streak_broken_by_short_event :
  qualifyingStreakStart
    [ mkContraction 1 0 60000 60000 (5 # 10);
      mkContraction 2 300000 330000 30000 (5 # 10);
      mkContraction 3 600000 660000 60000 (5 # 10);
      mkContraction 4 900000 960000 60000 (5 # 10) ]
  = Normal (Some 600000).
Proof. reflexivity. Qed.

Example streak_broken_by_long_interval :
  qualifyingStreakStart
    [ mkContraction 1 0 60000 60000 (5 # 10);
      mkContraction 2 300001 360001 60000 (5 # 10);
      mkContraction 3 600001 660001 60000 (5 # 10) ]
  = Normal (Some 300001).
Proof. reflexivity. Qed.

Example streak_empty_history : qualifyingStreakStart [] = Normal None.
Proof. reflexivity. Qed.

(** C3.  [streakDuration] is [now - qualifyingStart] when there is a streak
    and 0 when there is none; [rule511Met] holds exactly when it is at least
    3600000; and on four one-minute events five minutes apart the streak
    starts at the first one and the rule is not met 3599999 ms after that
    start and met 3600000 ms after it. *)
Theorem C3_threshold :
  (forall q now, streakDuration (Some q) now = now - q)
  /\ (forall now, streakDuration None now = 0)
  /\ (forall qs now,
        rule511Met qs now = true <-> 3600000 <= streakDuration qs now)
  /\ (forall s0 ids ends intens,
        qualifyingStreakStart (four_events s0 ids ends intens)
        = Normal (Some s0)
        /\ rule511Met (Some s0) (s0 + 3599999) = false
        /\ rule511Met (Some s0) (s0 + 3600000) = true).
Proof.
  split; [reflexivity|]. split; [reflexivity|]. split.
  - intros qs now. unfold rule511Met. rewrite Z.leb_le. reflexivity.
  - intros s0 ids ends intens. split; [|split].
    + unfold four_events, qualifyingStreakStart. simpl.
      repeat match goal with
             | |- context [?d <=? FIVE_MIN_MS] =>
                 destruct (Z.leb_spec d FIVE_MIN_MS) as [_|Hbad];
                 [|unfold FIVE_MIN_MS in Hbad; lia]
             end.
      simpl. f_equal. f_equal. lia.
    + unfold rule511Met, streakDuration. apply Z.leb_gt.
      unfold ONE_HOUR_MS. lia.
    + unfold rule511Met, streakDuration. apply Z.leb_le.
      unfold ONE_HOUR_MS. lia.
Qed.

(** ** Session aggregates *)

Lemma fold_left_add_acc (l : list Z) :
  forall acc, fold_left (fun a b => a + b) l acc = acc + fold_right Z.add 0 l.
Proof.
  induction l as [|h t IH]; intros acc; simpl.
  - lia.
  - rewrite IH. lia.
Qed.

Lemma sumZ_fold_right (l : list Z) : sumZ l = fold_right Z.add 0 l.
Proof. unfold sumZ. rewrite fold_left_add_acc. lia. Qed.

Lemma sumDurations_acc (cs : list Contraction) :
  forall acc,
    fold_left (fun a b => a + duration b) cs acc
    = acc + fold_right Z.add 0 (map duration cs).
Proof.
  induction cs as [|h t IH]; intros acc; simpl.
  - lia.
  - rewrite IH. lia.
Qed.

Lemma sumDurations_fold_right (cs : list Contraction) :
  sumDurations cs = fold_right Z.add 0 (map duration cs).
Proof. unfold sumDurations. rewrite sumDurations_acc. lia. Qed.

(** The indexed [map] over [slice(1)] never reads out of range and
    produces the consecutive differences of the starts. *)
Lemma map_intervals_spec (rest : list Contraction) :
  forall (pre : list Contraction) (p : Contraction),
    map_intervals (pre ++ p :: rest) rest (length_ pre)
    = Normal (consecutive_diffs (map start (p :: rest))).
Proof.
  induction rest as [|c rest' IH]; intros pre p.
  - reflexivity.
  - simpl map_intervals. rewrite at_index_app_last. simpl bind.
    assert (Hlen : length_ pre + 1 = length_ (pre ++ [p])).
    { unfold length_. rewrite length_app. simpl. lia. }
    assert (Hcs : pre ++ p :: c :: rest' = (pre ++ [p]) ++ c :: rest').
    { rewrite <- app_assoc. reflexivity. }
    rewrite Hlen, Hcs, IH. reflexivity.
Qed.

Lemma allIntervals_spec (cs : list Contraction) :
  allIntervals cs = Normal (consecutive_diffs (map start cs)).
Proof.
  unfold allIntervals, length_.
  destruct cs as [|p rest]; [reflexivity|].
  destruct rest as [|c rest']; [reflexivity|].
  destruct (Z.leb_spec 2 (Z.of_nat (List.length (p :: c :: rest')))) as [_|Hbad];
    [|simpl List.length in Hbad; lia].
  apply (map_intervals_spec (c :: rest') [] p).
Qed.

Lemma consecutive_diffs_length (xs : list Z) :
  List.length (consecutive_diffs xs) = (List.length xs - 1)%nat.
Proof.
  induction xs as [|a t IH]; [reflexivity|].
  destruct t as [|b t']; [reflexivity|].
  change (consecutive_diffs (a :: b :: t'))
    with ((b - a) :: consecutive_diffs (b :: t')).
  simpl List.length in *. rewrite IH. lia.
Qed.

Lemma last_cons_default (c : Z) (t : list Z) (d1 d2 : Z) :
  last (c :: t) d1 = last (c :: t) d2.
Proof.
  revert c. induction t as [|h t' IH]; intros c; [reflexivity|].
  change (last (h :: t') d1 = last (h :: t') d2). apply IH.
Qed.

(** The intervals telescope: their sum is the last start minus the first. *)
Lemma consecutive_diffs_sum (t : list Z) :
  forall a, fold_right Z.add 0 (consecutive_diffs (a :: t)) = last t a - a.
Proof.
  induction t as [|b t' IH]; intros a.
  - simpl. lia.
  - change (consecutive_diffs (a :: b :: t'))
      with ((b - a) :: consecutive_diffs (b :: t')).
    cbn [fold_right]. rewrite IH.
    destruct t' as [|c t'']; [simpl; lia|].
    rewrite (last_cons_default c t'' b a).
    change (last (b :: c :: t'') a) with (last (c :: t'') a). lia.
Qed.

(** C8.  Both aggregates read the whole history and nothing else:
    [avgRecentInterval] is the mean of the consecutive differences of all the
    starts, and is [null] exactly when there are fewer than two events;
    [avgRecentDuration] is the mean of all the durations, and is [null]
    exactly when there is no event. *)
Theorem C8_session_aggregates (cs : list Contraction) :
  avgRecentInterval cs = Normal (mean_spec (consecutive_diffs (map start cs)))
  /\ avgRecentDuration cs = mean_spec (map duration cs)
  /\ (avgRecentInterval cs = Normal None <-> (List.length cs < 2)%nat)
  /\ (avgRecentDuration cs = None <-> cs = []).
Proof.
  assert (HI : avgRecentInterval cs
               = Normal (mean_spec (consecutive_diffs (map start cs)))).
  { unfold avgRecentInterval. rewrite allIntervals_spec. simpl bind.
    destruct (consecutive_diffs (map start cs)) as [|d ds] eqn:E;
      [reflexivity|].
    unfold mean_spec.
    destruct (Z.eqb_spec (Z.of_nat (List.length (d :: ds))) 0) as [Hz|_];
      [simpl List.length in Hz; lia|].
    rewrite sumZ_fold_right. reflexivity. }
  assert (HD : avgRecentDuration cs = mean_spec (map duration cs)).
  { unfold avgRecentDuration, length_.
    destruct cs as [|c t]; [reflexivity|].
    destruct (Z.eqb_spec (Z.of_nat (List.length (c :: t))) 0) as [Hz|_];
      [simpl List.length in Hz; lia|].
    rewrite sumDurations_fold_right.
    cbn [map mean_spec List.length]. rewrite length_map. reflexivity. }
  split; [exact HI|]. split; [exact HD|]. split.
  - rewrite HI.
    pose proof (consecutive_diffs_length (map start cs)) as Hlen.
    rewrite length_map in Hlen.
    destruct (consecutive_diffs (map start cs)) as [|d ds];
      simpl List.length in Hlen; simpl mean_spec.
    + split; [intros _; lia|reflexivity].
    + split; [intros H; discriminate H|intros H; lia].
  - rewrite HD. destruct cs as [|c t]; simpl.
    + split; reflexivity.
    + split; intros H; discriminate H.
Qed.

Example avg_interval_two_events :
  avgRecentInterval
    [ mkContraction 1 0 1000 1000 (5 # 10);
      mkContraction 2 400000 460000 60000 (5 # 10);
      mkContraction 3 500000 500500 500 (5 # 10) ]
  = Normal (Some (500000 # 2)).
Proof. reflexivity. Qed.

(** ** The start/stop command *)

(** C4.  On a state with a contraction in progress started at [a]: when
    [now - a < 1000] the command only resets [activeStart] and the history
    is unchanged; when [now - a = 1000] it appends exactly one event, which
    runs from [a] to [now] and has [duration = 1000]. *)
Theorem C4_end_command (s : State) (dateNow a : Z) :
  st_activeStart s = Some a -> isActive s = true ->
  (st_now s - a < 1000 ->
   st_contractions (toggleContraction dateNow s) = st_contractions s
   /\ st_activeStart (toggleContraction dateNow s) = None)
  /\ (st_now s - a = 1000 ->
      exists e,
        st_contractions (toggleContraction dateNow s) = st_contractions s ++ [e]
        /\ duration e = 1000 /\ start e = a /\ end_ e = st_now s
        /\ st_activeStart (toggleContraction dateNow s) = None).
Proof.
  intros Ha Hact. unfold isActive in Hact.
  unfold toggleContraction. rewrite Ha in *. rewrite Hact. simpl negb. cbv iota.
  split; intros Hel.
  - destruct (Z.ltb_spec (st_now s - a) 1000) as [_|Hbad]; [|lia].
    split; reflexivity.
  - destruct (Z.ltb_spec (st_now s - a) 1000) as [Hbad|_]; [lia|].
    eexists. split; [reflexivity|]. simpl. repeat split; lia.
Qed.

Lemma C4_end_command_witness :
  st_activeStart in_progress_1000 = Some 5000
  /\ isActive in_progress_1000 = true
  /\ ((st_now in_progress_1000 - 5000 < 1000 ->
       st_contractions (toggleContraction 6050 in_progress_1000)
       = st_contractions in_progress_1000
       /\ st_activeStart (toggleContraction 6050 in_progress_1000) = None)
      /\ (st_now in_progress_1000 - 5000 = 1000 ->
          exists e,
            st_contractions (toggleContraction 6050 in_progress_1000)
            = st_contractions in_progress_1000 ++ [e]
            /\ duration e = 1000 /\ start e = 5000
            /\ end_ e = st_now in_progress_1000
            /\ st_activeStart (toggleContraction 6050 in_progress_1000) = None)).
Proof.
  split; [reflexivity|]. split; [reflexivity|].
  apply (C4_end_command in_progress_1000 6050 5000); reflexivity.
Defined.

(** X20.  Begin, some ticks, then end: the history grows by one event
    exactly when the last tick before the end is at least 1000 ms after the
    begin, and that event runs from the begin to that last tick. *)
Lemma begin_tick_end (s : State) (t0 t1 t2 : Z) :
  isActive s = false -> t0 <> 0 ->
  let s' := toggleContraction t2 (setNow t1 (toggleContraction t0 s)) in
  (t1 - t0 < 1000 -> st_contractions s' = st_contractions s)
  /\ (1000 <= t1 - t0 ->
      st_contractions s'
      = st_contractions s
        ++ [mkContraction t0 t0 t1 (t1 - t0) (inject_Z (st_intensity s) / 10)%Q]).
Proof.
  intros Hidle Ht0 s'.
  assert (E1 : toggleContraction t0 s = setActiveStart (Some t0) s).
  { unfold toggleContraction. unfold isActive in Hidle.
    destruct (st_activeStart s) as [a|]; [|reflexivity].
    rewrite Hidle. reflexivity. }
  unfold s'. rewrite E1. unfold toggleContraction. simpl.
  destruct (Z.eqb_spec t0 0) as [Hz|_]; [contradiction|]. simpl.
  split; intros H.
  - destruct (Z.ltb_spec (t1 - t0) 1000) as [_|Hbad]; [reflexivity|lia].
  - destruct (Z.ltb_spec (t1 - t0) 1000) as [Hbad|_]; [lia|reflexivity].
Qed.

(** ** Loading the persisted session *)

(** C9.  With a parser that reads the text [null] as the value [null]: an
    absent record, a text the parser rejects and a text that parses to a
    falsy value all load as the empty array, and the initializer returns
    normally whatever the storage holds or throws. *)
Theorem C9_load_total (JSON_parse : string -> completion JSValue) :
  JSON_parse "null"%string = Normal JNull ->
  initContractions JSON_parse (Normal None) = Normal (JArr [])
  /\ (forall s e, JSON_parse s = Throw e ->
        initContractions JSON_parse (Normal (Some s)) = Normal (JArr []))
  /\ (forall s v, JSON_parse s = Normal v -> js_truthy v = false ->
        initContractions JSON_parse (Normal (Some s)) = Normal (JArr []))
  /\ (forall getItem, exists v, initContractions JSON_parse getItem = Normal v).
Proof.
  intros Hnull. unfold initContractions. repeat split.
  - simpl. rewrite Hnull. reflexivity.
  - intros s e E. simpl. rewrite E. reflexivity.
  - intros s v E Hv. simpl. rewrite E. simpl. rewrite Hv. reflexivity.
  - intros getItem. destruct getItem as [stored|e]; [|eexists; reflexivity].
    simpl bind.
    destruct (JSON_parse (to_string_arg stored)) as [v|e];
      simpl; eexists; reflexivity.
Qed.

Lemma C9_load_total_witness :
  literal_parse "null"%string = Normal JNull
  /\ initContractions literal_parse (Normal None) = Normal (JArr [])
  /\ initContractions literal_parse (Normal (Some "{not json"%string))
     = Normal (JArr [])
  /\ initContractions literal_parse (Normal (Some "0"%string))
     = Normal (JArr []).
Proof.
  split; [reflexivity|].
  destruct (C9_load_total literal_parse eq_refl) as [H0 [H1 [H2 _]]].
  split; [exact H0|]. split.
  - apply (H1 _ SyntaxError). reflexivity.
  - apply (H2 _ (JNum 0%Q)); reflexivity.
Defined.

(** A stored text that parses to a truthy value is returned as parsed. *)
Example load_keeps_truthy_value :
  initContractions literal_parse (Normal (Some "5"%string)) = Normal (JNum 5%Q).
Proof. reflexivity. Qed.

(** ** Stored intensities *)

Lemma slider_intensity_range (q : Q) :
  slider_intensity q -> (1 # 10 <= q)%Q /\ (q <= 1)%Q /\ ~ (q == 0)%Q.
Proof.
  intros [n [[Hlo Hhi] ->]].
  assert (H1 : (inject_Z 1 <= inject_Z n)%Q) by (rewrite <- Zle_Qle; lia).
  assert (H2 : (inject_Z n <= inject_Z 10)%Q) by (rewrite <- Zle_Qle; lia).
  change (inject_Z 1) with 1%Q in H1. change (inject_Z 10) with 10%Q in H2.
  assert (E : (inject_Z n / 10 == inject_Z n * (1 # 10))%Q)
    by (unfold Qdiv; reflexivity).
  rewrite E. repeat split; qlra.
Qed.

Lemma step_intensity_range (s s' : State) :
  step s s' -> 1 <= st_intensity s <= 10 -> 1 <= st_intensity s' <= 10.
Proof.
  intros Hstep Hs. destruct Hstep; simpl; try assumption.
  unfold toggleContraction.
  destruct (st_activeStart s) as [a|]; [|exact Hs].
  destruct (negb (truthy (Some a))); [exact Hs|].
  destruct (st_now s - a <? 1000); exact Hs.
Qed.

(** The setting stays a slider position in every reachable state. *)
Lemma reachable_intensity_range (loaded : list Contraction) (s : State) :
  reachable loaded s -> 1 <= st_intensity s <= 10.
Proof.
  induction 1 as [dateNow|s s' _ IH Hstep].
  - simpl. lia.
  - exact (step_intensity_range s s' Hstep IH).
Qed.

(** What [toggleContraction] does to the history: nothing, or one append. *)
Lemma toggleContraction_history (dateNow : Z) (s : State) :
  st_contractions (toggleContraction dateNow s) = st_contractions s
  \/ exists a,
       st_activeStart s = Some a
       /\ st_contractions (toggleContraction dateNow s)
          = st_contractions s
            ++ [mkContraction a a (st_now s) (st_now s - a)
                  (inject_Z (st_intensity s) / 10)%Q].
Proof.
  unfold toggleContraction.
  destruct (st_activeStart s) as [a|]; [|left; reflexivity].
  destruct (negb (truthy (Some a))); [left; reflexivity|].
  destruct (st_now s - a <? 1000); [left; reflexivity|].
  right. exists a. split; reflexivity.
Qed.

(** Every event of a reachable history was loaded or carries a slider
    intensity. *)
Lemma reachable_history (loaded : list Contraction) (s : State) :
  reachable loaded s ->
  Forall (fun e => In e loaded \/ slider_intensity (intensity e))
         (st_contractions s).
Proof.
  induction 1 as [dateNow|s s' Hreach IH Hstep].
  - simpl. apply Forall_forall. intros e He. left. exact He.
  - pose proof (reachable_intensity_range loaded s Hreach) as Hint.
    destruct Hstep; simpl; try assumption.
    + destruct (toggleContraction_history dateNow s) as [->|[a [_ ->]]];
        [exact IH|].
      apply Forall_app. split; [exact IH|].
      constructor; [|constructor]. right. simpl.
      exists (st_intensity s). split; [exact Hint|reflexivity].
    + constructor.
Qed.

(** C10.  In every state reachable from the initial one: an event that the
    stop command appends carries the current setting divided by 10; when a
    contraction is in progress the rendered array has, just before the
    trailing margin, one active bump carrying the current setting divided by
    10 and no other active segment; and that value lies between 1/10 and 1
    and is not 0. *)
Theorem C10_stored_intensity (loaded : list Contraction) (s : State) :
  reachable loaded s ->
  (forall dateNow e,
      st_contractions (toggleContraction dateNow s) = st_contractions s ++ [e] ->
      intensity e = (inject_Z (st_intensity s) / 10)%Q)
  /\ (isActive s = true ->
      exists before x w xt W,
        render_segments s
        = Normal (before
                    ++ [ActiveBell x w 1%Q (inject_Z (st_intensity s) / 10)%Q;
                        Flat xt LEAD_PX None], W)
        /\ Forall (fun g => seg_active g = false) before)
  /\ ((1 # 10 <= inject_Z (st_intensity s) / 10)%Q
      /\ (inject_Z (st_intensity s) / 10 <= 1)%Q
      /\ ~ (inject_Z (st_intensity s) / 10 == 0)%Q).
Proof.
  intros Hreach.
  pose proof (reachable_intensity_range loaded s Hreach) as Hint.
  split; [|split].
  - intros dateNow e He.
    destruct (toggleContraction_history dateNow s) as [Hsame|[a [_ Happ]]].
    + rewrite Hsame in He. rewrite <- (app_nil_r (st_contractions s)) in He at 1.
      apply app_inv_head in He. discriminate He.
    + rewrite Happ in He. apply app_inv_head in He.
      injection He as <-. reflexivity.
  - intros Hact. unfold isActive in Hact. unfold render_segments.
    destruct (build_segments_structure (st_contractions s) (st_activeStart s)
                (st_now s) (st_intensity s))
      as [done_ [live [xt [W [E [_ [_ [Hd [_ [_ Hlive]]]]]]]]]].
    destruct (Hlive Hact) as [l' [x [w [-> Hl']]]].
    exists (Flat (Y_AXIS_W + 8 - LEAD_PX) LEAD_PX None :: done_ ++ l'), x, w, xt, W.
    split.
    + rewrite E. f_equal. f_equal. simpl. f_equal.
      rewrite <- !app_assoc. reflexivity.
    + constructor; [reflexivity|].
      apply Forall_app. split; [|exact Hl'].
      eapply Forall_impl; [|exact Hd]. intros g [_ Hg]. exact Hg.
  - apply slider_intensity_range.
    exists (st_intensity s). split; [exact Hint|reflexivity].
Qed.

Lemma slider_at_10_reachable : reachable [] slider_at_10.
Proof.
  unfold slider_at_10.
  eapply reach_step; [|apply step_tick].
  eapply reach_step; [|apply step_toggle].
  eapply reach_step; [apply reach_init|apply step_intensity; lia].
Qed.

Lemma C10_stored_intensity_witness :
  reachable [] slider_at_10
  /\ (forall dateNow e,
        st_contractions (toggleContraction dateNow slider_at_10)
        = st_contractions slider_at_10 ++ [e] ->
        intensity e = (inject_Z 10 / 10)%Q).
Proof.
  split; [exact slider_at_10_reachable|].
  exact (proj1 (C10_stored_intensity [] slider_at_10 slider_at_10_reachable)).
Defined.

Example slider_at_10_stop :
  st_contractions (toggleContraction 7020 slider_at_10)
  = [mkContraction 5000 5000 7000 2000 (inject_Z 10 / 10)%Q].
Proof. reflexivity. Qed.

(** ** The amplitude curve *)

Section AmplitudeCurve.

Local Open Scope R_scope.

Lemma gauss_unfold (x : R) :
  gauss x = Rmax 0 ((raw_of x - floor_) / (1 - floor_)).
Proof. reflexivity. Qed.

Lemma exponent_eq (x : R) :
  - ((x - 0.5) ^ 2) / (2 * 0.15 ^ 2) = - ((x - 0.5) ^ 2) * (200 / 9).
Proof. rlra. Qed.

Lemma floor_lt_1 : floor_ < 1.
Proof.
  unfold floor_. rewrite <- exp_0. apply exp_increasing. rlra.
Qed.

(** Closer to the centre, the exponential is larger. *)
Lemma raw_of_mono (x y : R) :
  (y - 0.5) ^ 2 < (x - 0.5) ^ 2 -> raw_of x < raw_of y.
Proof.
  intros H. unfold raw_of. apply exp_increasing.
  rewrite !exponent_eq. rlra.
Qed.

Lemma raw_of_0 : raw_of 0 = floor_.
Proof. unfold raw_of, floor_. f_equal. rlra. Qed.

Lemma raw_of_1 : raw_of 1 = floor_.
Proof. unfold raw_of, floor_. f_equal. rlra. Qed.

Lemma raw_of_half : raw_of 0.5 = 1.
Proof. unfold raw_of. rewrite <- exp_0. f_equal. rlra. Qed.

Lemma raw_of_ge_floor (x : R) : 0 <= x <= 1 -> floor_ <= raw_of x.
Proof.
  intros Hx.
  destruct (Rle_lt_or_eq_dec ((x - 0.5) ^ 2) (0.5 ^ 2)) as [Hlt|Heq]; [rnra| |].
  - left. rewrite <- raw_of_0. apply raw_of_mono.
    replace ((0 - 0.5) ^ 2) with (0.5 ^ 2) by rlra. exact Hlt.
  - right. unfold raw_of, floor_. rewrite Heq. reflexivity.
Qed.

(** On [0, 1] the [Math.max] of [gauss] keeps the rescaled value. *)
Lemma gauss_inside (x : R) :
  0 <= x <= 1 -> gauss x = (raw_of x - floor_) / (1 - floor_).
Proof.
  intros Hx. rewrite gauss_unfold. apply Rmax_right.
  pose proof floor_lt_1. pose proof (raw_of_ge_floor x Hx).
  apply Rmult_le_pos; [rlra|].
  left. apply Rinv_0_lt_compat. rlra.
Qed.

Lemma scaled_lt (a b : R) :
  a < b -> (a - floor_) / (1 - floor_) < (b - floor_) / (1 - floor_).
Proof.
  intros H. pose proof floor_lt_1.
  apply Rmult_lt_compat_r; [apply Rinv_0_lt_compat; rlra|rlra].
Qed.

(** C5.  Over the real numbers: [gauss 0 = 0], [gauss 1 = 0],
    [gauss 0.5 = 1]; [gauss] is non-negative on [0, 1]; it rises strictly on
    [0, 0.5] and falls strictly on [0.5, 1]; and on [0, 1] it equals the
    rescaled Gaussian [max(0, (g(t) - g(0)) / (g(0.5) - g(0)))]. *)
Theorem C5_amplitude_curve :
  gauss 0 = 0 /\ gauss 1 = 0 /\ gauss 0.5 = 1
  /\ (forall t, 0 <= t <= 1 -> 0 <= gauss t)
  /\ unimodal_on gauss 0 1
  /\ (forall t, 0 <= t <= 1 -> gauss t = shape_spec t).
Proof.
  pose proof floor_lt_1 as Hf.
  split; [|split; [|split; [|split; [|split]]]].
  - rewrite gauss_inside by rlra. rewrite raw_of_0.
    unfold Rdiv. replace (floor_ - floor_) with 0 by rlra. apply Rmult_0_l.
  - rewrite gauss_inside by rlra. rewrite raw_of_1.
    unfold Rdiv. replace (floor_ - floor_) with 0 by rlra. apply Rmult_0_l.
  - rewrite gauss_inside by rlra. rewrite raw_of_half.
    unfold Rdiv. apply Rinv_r. rlra.
  - intros t _. rewrite gauss_unfold. apply Rmax_l.
  - exists 0.5. split; [rlra|]. split.
    + intros x y Hx Hxy Hy.
      rewrite !gauss_inside by rlra. apply scaled_lt, raw_of_mono. rnra.
    + intros x y Hx Hxy Hy.
      rewrite !gauss_inside by rlra. apply scaled_lt, raw_of_mono. rnra.
  - intros t _. unfold shape_spec.
    change (g_spec t) with (raw_of t). change (g_spec 0) with (raw_of 0).
    change (g_spec 0.5) with (raw_of 0.5).
    rewrite raw_of_0, raw_of_half. reflexivity.
Qed.

End AmplitudeCurve.

(** * Further properties of the segment builder *)

Lemma last_opt_snoc {A : Type} (l : list A) (x : A) :
  last_opt (l ++ [x]) = Some x.
Proof.
  induction l as [|h t IH]; [reflexivity|].
  simpl app. simpl last_opt. rewrite IH.
  destruct (t ++ [x]) eqn:E; [|reflexivity].
  destruct t; discriminate E.
Qed.

(** The loop with its index and its array reads is the structural
    recursion [history_segments]. *)
Lemma forEach_explicit (rest : list Contraction) :
  forall (pre : list Contraction) (b : Builder),
    forEach (pre ++ rest) rest (length_ pre) b
    = Normal (emit_all b (history_segments (cursor b) (last_opt pre) rest)).
Proof.
  induction rest as [|c rest' IH]; intros pre b.
  - reflexivity.
  - simpl forEach.
    assert (Hlen : length_ pre + 1 = length_ (pre ++ [c])).
    { unfold length_. rewrite length_app. simpl. lia. }
    assert (Hcs : pre ++ c :: rest' = (pre ++ [c]) ++ rest').
    { rewrite <- app_assoc. reflexivity. }
    rewrite Hlen.
    destruct (forEach_body_shape pre c rest' b) as [[Hp E]|[pre' [prev [Hp E]]]];
      cbv zeta in E; rewrite E; simpl bind; rewrite Hcs, IH;
      rewrite last_opt_snoc; subst pre.
    + reflexivity.
    + rewrite last_opt_snoc. reflexivity.
Qed.

Lemma at_index_last (cs : list Contraction) :
  0 < length_ cs ->
  exists lastc,
    at_index cs (length_ cs - 1) = Normal lastc /\ last_opt cs = Some lastc.
Proof.
  intros Hpos.
  destruct (list_nil_or_snoc cs) as [->|[pre [lastc ->]]];
    [unfold length_ in Hpos; simpl in Hpos; lia|].
  exists lastc. split; [|apply last_opt_snoc].
  replace (length_ (pre ++ [lastc]) - 1) with (length_ pre).
  - apply at_index_app_last.
  - unfold length_. rewrite length_app. simpl. lia.
Qed.

Lemma active_block_explicit (cs : list Contraction) (a now k : Z) (b : Builder) :
  truthy (Some a) = true ->
  active_block cs (Some a) now k b
  = Normal (emit_all b (active_segments (cursor b) (last_opt cs) a now k)).
Proof.
  intros Ht. unfold active_block. rewrite Ht.
  destruct (Z.ltb_spec 0 (length_ cs)) as [Hpos|Hzero].
  - destruct (at_index_last cs Hpos) as [lastc [E ->]].
    rewrite E. reflexivity.
  - destruct cs as [|c t]; [reflexivity|].
    unfold length_ in Hzero. simpl in Hzero. lia.
Qed.

Lemma active_block_idle (cs : list Contraction) (a : option Z) (now k : Z)
    (b : Builder) :
  truthy a = false -> active_block cs a now k b = Normal b.
Proof.
  intros Ht. unfold active_block. destruct a as [t|]; [|reflexivity].
  rewrite Ht. reflexivity.
Qed.

Lemma cursor_emit_all_end_x (l : list Segment) :
  forall b, cursor (emit_all b l) = end_x (cursor b) l.
Proof.
  induction l as [|s t IH]; intros b; [reflexivity|].
  simpl. rewrite IH. reflexivity.
Qed.

Lemma build_segments_explicit (cs : list Contraction) (a : option Z)
    (now k : Z) :
  let mid := middle_segments cs a now k in
  let xe := end_x (Y_AXIS_W + 8)%Q mid in
  build_segments cs a now k
  = Normal (Flat (Y_AXIS_W + 8 - LEAD_PX)%Q LEAD_PX None
              :: mid ++ [Flat xe LEAD_PX None],
            (xe + LEAD_PX)%Q).
Proof.
  unfold build_segments. cbv zeta.
  set (b1 := push _ _).
  pose proof (forEach_explicit cs [] b1) as E1.
  simpl app in E1. change (length_ []) with 0 in E1.
  change (last_opt []) with (@None Contraction) in E1.
  change (cursor b1) with (Y_AXIS_W + 8)%Q in E1.
  rewrite E1. simpl bind.
  set (hs := history_segments (Y_AXIS_W + 8)%Q None cs).
  assert (Hcur : cursor (emit_all b1 hs) = end_x (Y_AXIS_W + 8)%Q hs)
    by apply cursor_emit_all_end_x.
  unfold middle_segments. fold hs.
  destruct a as [t|].
  - destruct (truthy (Some t)) eqn:Ht.
    + rewrite (active_block_explicit cs t now k _ Ht). simpl bind.
      rewrite Hcur. rewrite <- emit_all_app.
      simpl. rewrite segments_emit_all, cursor_emit_all_end_x. reflexivity.
    + rewrite (active_block_idle cs (Some t) now k _ Ht). simpl bind.
      simpl. rewrite segments_emit_all, cursor_emit_all_end_x. reflexivity.
  - simpl. rewrite segments_emit_all, cursor_emit_all_end_x. reflexivity.
Qed.

Lemma tiles_proper (l : list Segment) :
  forall x x' xe xe',
    (x == x')%Q -> (xe == xe')%Q -> tiles x l xe -> tiles x' l xe'.
Proof.
  induction l as [|s t IH]; intros x x' xe xe' Hx Hxe H; simpl in *.
  - rewrite <- Hx, <- Hxe. exact H.
  - destruct H as [Hs Ht]. split; [rewrite <- Hx; exact Hs|].
    apply (IH (x + seg_widthPx s)%Q _ xe); [rewrite Hx; reflexivity|exact Hxe|exact Ht].
Qed.

Lemma tiles_app (l1 l2 : list Segment) :
  forall x xm xe,
    tiles x l1 xm -> tiles xm l2 xe -> tiles x (l1 ++ l2) xe.
Proof.
  induction l1 as [|s t IH]; intros x xm xe H1 H2; simpl in *.
  - apply (tiles_proper l2 xm x xe xe); [symmetry; exact H1|reflexivity|exact H2].
  - destruct H1 as [Hs Ht]. split; [exact Hs|]. exact (IH _ xm xe Ht H2).
Qed.

Lemma end_x_app (l1 l2 : list Segment) :
  forall x, end_x x (l1 ++ l2) = end_x (end_x x l1) l2.
Proof.
  induction l1 as [|s t IH]; intros x; [reflexivity|]. simpl. apply IH.
Qed.

Lemma end_x_sum (l : list Segment) :
  forall x, (end_x x l == x + sum_widths l)%Q.
Proof.
  induction l as [|s t IH]; intros x; simpl.
  - ring.
  - rewrite IH. ring.
Qed.

Lemma tiles_history (rest : list Contraction) :
  forall x prev,
    tiles x (history_segments x prev rest)
          (end_x x (history_segments x prev rest)).
Proof.
  induction rest as [|c rest' IH]; intros x prev.
  - simpl. reflexivity.
  - destruct prev as [p|]; simpl.
    + split; [reflexivity|]. split; [reflexivity|]. apply IH.
    + split; [reflexivity|]. apply IH.
Qed.

Lemma tiles_active (x : Q) (lastc : option Contraction) (a now k : Z) :
  tiles x (active_segments x lastc a now k)
        (end_x x (active_segments x lastc a now k)).
Proof.
  destruct lastc as [l|]; simpl; repeat split; reflexivity.
Qed.

Lemma tiles_middle (cs : list Contraction) (a : option Z) (now k : Z) :
  tiles (Y_AXIS_W + 8)%Q (middle_segments cs a now k)
        (end_x (Y_AXIS_W + 8)%Q (middle_segments cs a now k)).
Proof.
  unfold middle_segments. cbv zeta.
  destruct a as [t|]; [|apply tiles_history].
  destruct (truthy (Some t)); [|apply tiles_history].
  rewrite end_x_app.
  eapply tiles_app; [apply tiles_history|apply tiles_active].
Qed.

(** X1.  The segments of the returned array tile the axis without gap or
    overlap: the leading margin starts at 28, every other segment starts
    where the one before it ends, and the trailing margin ends at
    [svgWidth]. *)
Theorem segments_tile_axis (cs : list Contraction) (a : option Z) (now k : Z) :
  exists segs W,
    build_segments cs a now k = Normal (segs, W)
    /\ tiles 28%Q segs W.
Proof.
  pose proof (build_segments_explicit cs a now k) as E. cbv zeta in E.
  eexists _, _. split; [exact E|].
  simpl tiles. split; [reflexivity|].
  apply tiles_app
    with (xm := end_x (Y_AXIS_W + 8)%Q (middle_segments cs a now k)).
  - apply tiles_proper
      with (x := (Y_AXIS_W + 8)%Q)
           (xe := end_x (Y_AXIS_W + 8)%Q (middle_segments cs a now k)).
    + simpl. unfold Y_AXIS_W, LEAD_PX. ring.
    + reflexivity.
    + apply tiles_middle.
  - simpl. split; reflexivity.
Qed.

Lemma bells_of_app (l1 l2 : list Segment) :
  bells_of (l1 ++ l2) = bells_of l1 ++ bells_of l2.
Proof.
  induction l1 as [|s t IH]; [reflexivity|].
  destruct s; simpl; rewrite IH; reflexivity.
Qed.

Lemma labels_of_app (l1 l2 : list Segment) :
  labels_of (l1 ++ l2) = labels_of l1 ++ labels_of l2.
Proof.
  induction l1 as [|s t IH]; [reflexivity|].
  destruct s as [x w [lbl|]| |]; simpl; rewrite IH; reflexivity.
Qed.

Lemma count_active_app (l1 l2 : list Segment) :
  count_active (l1 ++ l2) = (count_active l1 + count_active l2)%nat.
Proof.
  unfold count_active. rewrite filter_app, length_app. reflexivity.
Qed.

Lemma history_segments_content (rest : list Contraction) :
  forall x prev,
    bells_of (history_segments x prev rest) = rest
    /\ labels_of (history_segments x prev rest)
       = map formatDuration (rest_gaps prev rest)
    /\ count_active (history_segments x prev rest) = O.
Proof.
  induction rest as [|c rest' IH]; intros x prev.
  - repeat split; reflexivity.
  - destruct prev as [p|]; simpl history_segments; cbv zeta.
    + destruct (IH (x + Qmax MIN_REST_PX (secPx (start c - end_ p))
                    + Qmax MIN_BELL_PX (secPx (duration c)))%Q (Some c))
        as [Hb [Hl Hc]].
      repeat split; simpl; [rewrite Hb|rewrite Hl|exact Hc]; reflexivity.
    + destruct (IH (x + Qmax MIN_BELL_PX (secPx (duration c)))%Q (Some c))
        as [Hb [Hl Hc]].
      repeat split; simpl; [rewrite Hb; reflexivity|exact Hl|exact Hc].
Qed.

Lemma active_segments_content (x : Q) (lastc : option Contraction)
    (a now k : Z) :
  bells_of (active_segments x lastc a now k) = []
  /\ labels_of (active_segments x lastc a now k) = []
  /\ count_active (active_segments x lastc a now k) = 1%nat.
Proof.
  destruct lastc as [l|]; repeat split; reflexivity.
Qed.

(** X2.  The returned array carries the history: its stored bumps are the
    events of the history in order, its labelled gaps are the rests
    [start - end of the previous event] of the consecutive pairs, formatted,
    and it has one active bump when a contraction is in progress and none
    otherwise. *)
Theorem segments_carry_history (cs : list Contraction) (a : option Z)
    (now k : Z) :
  exists segs W,
    build_segments cs a now k = Normal (segs, W)
    /\ bells_of segs = cs
    /\ labels_of segs = map formatDuration (rest_gaps None cs)
    /\ count_active segs = (if truthy a then 1 else 0)%nat.
Proof.
  pose proof (build_segments_explicit cs a now k) as E. cbv zeta in E.
  eexists _, _. split; [exact E|].
  destruct (history_segments_content cs (Y_AXIS_W + 8)%Q None) as [Hb [Hl Hc]].
  assert (Hmid : bells_of (middle_segments cs a now k) = cs
                 /\ labels_of (middle_segments cs a now k)
                    = map formatDuration (rest_gaps None cs)
                 /\ count_active (middle_segments cs a now k)
                    = (if truthy a then 1 else 0)%nat).
  { unfold middle_segments. cbv zeta.
    destruct a as [t|]; [|repeat split; assumption].
    destruct (truthy (Some t)); [|repeat split; assumption].
    match goal with
    | |- context [active_segments ?x ?l t now k] =>
        destruct (active_segments_content x l t now k) as [Ab [Al Ac]]
    end.
    rewrite bells_of_app, labels_of_app, count_active_app.
    rewrite Hb, Hl, Hc, Ab, Al, Ac, !app_nil_r. repeat split; reflexivity. }
  destruct Hmid as [Mb [Ml Mc]].
  change (Flat (Y_AXIS_W + 8 - LEAD_PX) LEAD_PX None
            :: middle_segments cs a now k
               ++ [Flat (end_x (Y_AXIS_W + 8) (middle_segments cs a now k))
                     LEAD_PX None])
    with ([Flat (Y_AXIS_W + 8 - LEAD_PX)%Q LEAD_PX None]
            ++ middle_segments cs a now k
               ++ [Flat (end_x (Y_AXIS_W + 8) (middle_segments cs a now k))
                     LEAD_PX None]).
  rewrite !bells_of_app, !labels_of_app, !count_active_app.
  rewrite Mb, Ml, Mc. simpl. rewrite !app_nil_r.
  repeat split. change (count_active [Flat _ _ _]) with O. lia.
Qed.

Lemma secPx_linear (ms : Z) : (secPx ms == inject_Z ms * (1 # 250))%Q.
Proof. unfold secPx, PX_PER_SEC. field. Qed.

Lemma secPx_mono (m n : Z) : m <= n -> (secPx m <= secPx n)%Q.
Proof.
  intros H. rewrite !secPx_linear. rewrite Zle_Qle in H. qlra.
Qed.

Lemma active_segments_grow (x : Q) (lastc : option Contraction)
    (a k now1 now2 : Z) :
  now1 <= now2 ->
  (sum_widths (active_segments x lastc a now1 k)
   <= sum_widths (active_segments x lastc a now2 k))%Q
  /\ List.length (active_segments x lastc a now1 k)
     = List.length (active_segments x lastc a now2 k).
Proof.
  intros H.
  assert (Hw : (Qmax MIN_BELL_PX (secPx (now1 - a))
                <= Qmax MIN_BELL_PX (secPx (now2 - a)))%Q).
  { apply Q.max_le_compat_l. apply secPx_mono. lia. }
  destruct lastc as [l|]; simpl; split; try reflexivity; qlra.
Qed.

(** X3.  While a contraction is in progress the chart only grows with the
    clock: for [now1 <= now2] the two arrays have the same number of
    segments and [svgWidth] does not decrease; when none is in progress the
    array and [svgWidth] do not depend on the clock at all. *)
Theorem svgWidth_monotone_in_now (cs : list Contraction) (a : option Z)
    (k now1 now2 : Z) :
  now1 <= now2 ->
  exists segs1 W1 segs2 W2,
    build_segments cs a now1 k = Normal (segs1, W1)
    /\ build_segments cs a now2 k = Normal (segs2, W2)
    /\ (W1 <= W2)%Q
    /\ List.length segs1 = List.length segs2
    /\ (truthy a = false -> segs1 = segs2 /\ W1 = W2).
Proof.
  intros Hnow.
  pose proof (build_segments_explicit cs a now1 k) as E1.
  pose proof (build_segments_explicit cs a now2 k) as E2.
  cbv zeta in E1, E2.
  eexists _, _, _, _. split; [exact E1|]. split; [exact E2|].
  unfold middle_segments. cbv zeta.
  set (hs := history_segments (Y_AXIS_W + 8)%Q None cs).
  destruct a as [t|]; [|repeat split; (reflexivity || apply Qle_refl)].
  destruct (truthy (Some t)) eqn:Ht;
    [|repeat split; (reflexivity || apply Qle_refl)].
  destruct (active_segments_grow (end_x (Y_AXIS_W + 8)%Q hs) (last_opt cs)
              t k now1 now2 Hnow) as [Hsum Hlen].
  split; [|split; [|intros Hf; discriminate Hf]].
  - match goal with
    | |- (end_x ?x (hs ++ ?a1) + _ <= end_x ?x (hs ++ ?a2) + _)%Q =>
        rewrite (end_x_sum (hs ++ a1) x), (end_x_sum (hs ++ a2) x),
          (sum_widths_app2 hs a1), (sum_widths_app2 hs a2)
    end.
    qlra.
  - simpl. rewrite !length_app, Hlen. reflexivity.
Qed.

Lemma svgWidth_monotone_in_now_witness :
  100000 <= 110000
  /\ exists segs1 W1 segs2 W2,
       build_segments one_event (Some 90000) 100000 5 = Normal (segs1, W1)
       /\ build_segments one_event (Some 90000) 110000 5 = Normal (segs2, W2)
       /\ (W1 <= W2)%Q
       /\ List.length segs1 = List.length segs2
       /\ (truthy (Some 90000) = false -> segs1 = segs2 /\ W1 = W2).
Proof.
  split; [lia|].
  apply (svgWidth_monotone_in_now one_event (Some 90000) 5 100000 110000). lia.
Defined.

(** * Runs under a monotone clock *)

Lemma chronological_snoc (cs : list Contraction) (e : Contraction) :
  chronological cs ->
  Forall (fun c => end_ c <= start e) cs ->
  chronological (cs ++ [e]).
Proof.
  induction cs as [|c t IH]; intros Hc Hb; [exact I|].
  destruct t as [|c' t'].
  - simpl. inversion Hb; subst. split; [assumption|exact I].
  - change (chronological ((c :: c' :: t') ++ [e]))
      with (end_ c <= start c' /\ chronological ((c' :: t') ++ [e])).
    destruct Hc as [H1 H2]. split; [exact H1|].
    apply IH; [exact H2|]. inversion Hb; assumption.
Qed.

Lemma Forall_le_trans (cs : list Contraction) (x y : Z) :
  x <= y -> Forall (fun c => end_ c <= x) cs -> Forall (fun c => end_ c <= y) cs.
Proof.
  intros Hxy H. eapply Forall_impl; [|exact H]. intros c Hc. simpl in *. lia.
Qed.

Lemma clock_invariant_toggle (clock dateNow : Z) (s : State) :
  clock <= dateNow -> clock_invariant clock s ->
  clock_invariant dateNow (toggleContraction dateNow s).
Proof.
  intros Hclk [Hnow [Hends [Hact [Hchr Hwt]]]].
  assert (Hbegin : clock_invariant dateNow (setActiveStart (Some dateNow) s)).
  { repeat split; simpl; try assumption.
    - lia.
    - apply (Forall_le_trans _ clock); assumption.
    - injection H as <-. lia.
    - injection H as <-. apply (Forall_le_trans _ clock); assumption. }
  assert (Hcancel : clock_invariant dateNow (setActiveStart None s)).
  { repeat split; simpl; try assumption; try discriminate.
    - lia.
    - apply (Forall_le_trans _ clock); assumption. }
  unfold toggleContraction.
  destruct (st_activeStart s) as [a|] eqn:Ea; [|exact Hbegin].
  destruct (negb (truthy (Some a))); [exact Hbegin|].
  destruct (Z.ltb_spec (st_now s - a) 1000) as [Hshort|Hlong]; [exact Hcancel|].
  destruct (Hact a eq_refl) as [_ Hbefore].
  repeat split; simpl; try discriminate.
  - lia.
  - apply Forall_app. split; [apply (Forall_le_trans _ clock); assumption|].
    constructor; [simpl; lia|constructor].
  - apply chronological_snoc; [exact Hchr|exact Hbefore].
  - apply Forall_app. split; [exact Hwt|].
    constructor; [|constructor]. repeat split; simpl; lia.
Qed.

Lemma run_clock_invariant (loaded : list Contraction) (clock : Z) (s : State) :
  chronological loaded -> Forall well_timed loaded ->
  run loaded clock s -> clock_invariant clock s.
Proof.
  intros Hchr Hwt Hrun.
  induction Hrun as [dateNow Hends|clock s dateNow _ IH Hclk
                    |clock s dateNow _ IH Hclk|clock s _ IH
                    |clock s n _ IH Hn|clock s b _ IH|clock s w _ IH].
  - repeat split; simpl; try assumption; try discriminate. lia.
  - apply (clock_invariant_toggle clock); assumption.
  - destruct IH as [Hnow [Hends [Hact [Hc Hw]]]].
    repeat split; simpl; try assumption.
    + lia.
    + apply (Forall_le_trans _ clock); assumption.
    + destruct (Hact a H) as [Ha _]. lia.
    + destruct (Hact a H) as [_ Hb]. exact Hb.
  - destruct IH as [Hnow [Hends [Hact [Hc Hw]]]].
    repeat split; simpl; try assumption; try discriminate; constructor.
  - exact IH.
  - exact IH.
  - exact IH.
Qed.

(** X4.  When the values of [Date.now()] never decrease and the loaded
    history is chronological, made of well-timed events and over at mount
    time, every history the component reaches is chronological (each event
    starts at or after the end of the one before it) and made of well-timed
    events ([id = start], [duration = end - start >= 1000]); and a
    contraction in progress started at or after the end of every stored
    event. *)
Theorem history_stays_chronological (loaded : list Contraction) (clock : Z)
    (s : State) :
  chronological loaded -> Forall well_timed loaded ->
  run loaded clock s ->
  chronological (st_contractions s)
  /\ Forall well_timed (st_contractions s)
  /\ (forall a, st_activeStart s = Some a ->
                Forall (fun c => end_ c <= a) (st_contractions s)).
Proof.
  intros Hchr Hwt Hrun.
  destruct (run_clock_invariant loaded clock s Hchr Hwt Hrun)
    as [_ [_ [Hact [Hc Hw]]]].
  split; [exact Hc|]. split; [exact Hw|].
  intros a Ha. exact (proj2 (Hact a Ha)).
Qed.

Lemma two_contractions_run_ok : run [] 400000 two_contractions_run.
Proof.
  unfold two_contractions_run.
  apply (run_toggle [] 70100); [|lia].
  apply (run_tick [] 70020); [|lia].
  apply (run_toggle [] 70000); [|lia].
  apply (run_tick [] 5000); [|lia].
  apply (run_toggle [] 4000); [|lia].
  apply run_init. constructor.
Qed.

Lemma history_stays_chronological_witness :
  chronological [] /\ Forall well_timed [] /\ run [] 400000 two_contractions_run
  /\ chronological (st_contractions two_contractions_run)
  /\ Forall well_timed (st_contractions two_contractions_run).
Proof.
  split; [exact I|]. split; [constructor|].
  split; [exact two_contractions_run_ok|].
  destruct (history_stays_chronological [] 400000 two_contractions_run
              I (Forall_nil _) two_contractions_run_ok) as [H1 [H2 _]].
  split; assumption.
Defined.

Example two_contractions_run_state :
  st_contractions two_contractions_run
  = [mkContraction 5000 5000 70000 65000 (inject_Z 5 / 10)%Q]
  /\ st_activeStart two_contractions_run = Some 400000.
Proof. split; reflexivity. Qed.

(** * How the streak evolves when an event is appended *)

Lemma at_index_app_l (cs ext : list Contraction) (i : Z) :
  0 <= i < length_ cs -> at_index (cs ++ ext) i = at_index cs i.
Proof.
  intros Hi. unfold at_index, length_ in *.
  destruct (Z.ltb_spec i 0) as [Hneg|_]; [lia|].
  rewrite nth_error_app1 by lia. reflexivity.
Qed.

(** The backward loop entered at [k] reads nothing above index [k]. *)
Lemma streak_loop_app (cs ext : list Contraction) :
  forall (k : nat) (sb : Z),
    (k < List.length cs)%nat ->
    streak_loop (cs ++ ext) k sb = streak_loop cs k sb.
Proof.
  induction k as [|k IH]; intros sb Hk; [reflexivity|].
  simpl streak_loop.
  rewrite !at_index_app_l by (unfold length_; lia).
  destruct (at_index cs (Z.of_nat k + 1)) as [next|e]; [|reflexivity].
  destruct (at_index cs (Z.of_nat k)) as [cur|e]; [|reflexivity].
  simpl bind.
  destruct ((ONE_MIN_MS <=? duration cur)
            && (start next - start cur <=? FIVE_MIN_MS)); [|reflexivity].
  apply IH. lia.
Qed.

(** The evaluator on a history written [pre ++ [lastc]]. *)
Lemma qualifyingStreakStart_snoc (pre : list Contraction) (lastc : Contraction) :
  qualifyingStreakStart (pre ++ [lastc])
  = if ONE_MIN_MS <=? duration lastc
    then sb <- streak_loop (pre ++ [lastc]) (List.length pre)
                 (Z.of_nat (List.length pre)) ;;
         first <- at_index (pre ++ [lastc]) sb ;;
         Normal (Some (start first))
    else Normal None.
Proof.
  unfold qualifyingStreakStart.
  assert (Hlen : length_ (pre ++ [lastc]) = Z.of_nat (List.length pre) + 1).
  { unfold length_. rewrite length_app. simpl. lia. }
  rewrite Hlen.
  destruct (Z.leb_spec 1 (Z.of_nat (List.length pre) + 1)) as [_|Hbad]; [|lia].
  replace (Z.of_nat (List.length pre) + 1 - 1) with (length_ pre)
    by (unfold length_; lia).
  rewrite at_index_app_last. simpl bind.
  unfold length_. rewrite Nat2Z.id. reflexivity.
Qed.

(** X5.  Extending a streak.  When the history has a streak starting at [q]
    and a new event of at least one minute is appended whose start is at
    most five minutes after the start of the last event, the streak of the
    longer history still starts at [q]. *)
Theorem streak_extends (pre : list Contraction) (lastc e : Contraction)
    (q : Z) :
  qualifyingStreakStart (pre ++ [lastc]) = Normal (Some q) ->
  ONE_MIN_MS <= duration e ->
  start e - start lastc <= FIVE_MIN_MS ->
  qualifyingStreakStart ((pre ++ [lastc]) ++ [e]) = Normal (Some q).
Proof.
  intros Hq He Hint.
  rewrite qualifyingStreakStart_snoc in Hq.
  destruct (Z.leb_spec ONE_MIN_MS (duration lastc)) as [Hlast|_];
    [|discriminate Hq].
  rewrite qualifyingStreakStart_snoc.
  destruct (Z.leb_spec ONE_MIN_MS (duration e)) as [_|Hbad]; [|lia].
  assert (Hn : List.length (pre ++ [lastc]) = S (List.length pre)).
  { rewrite length_app. simpl. lia. }
  rewrite Hn. simpl streak_loop.
  replace (Z.of_nat (List.length pre) + 1) with (length_ (pre ++ [lastc]))
    by (unfold length_; lia).
  rewrite at_index_app_last.
  rewrite at_index_app_l
    by (unfold length_; rewrite length_app; simpl; lia).
  replace (Z.of_nat (List.length pre)) with (length_ pre) at 1 by reflexivity.
  rewrite at_index_app_last. simpl bind.
  destruct (Z.leb_spec ONE_MIN_MS (duration lastc)) as [_|Hbad]; [|lia].
  destruct (Z.leb_spec (start e - start lastc) FIVE_MIN_MS) as [_|Hbad]; [|lia].
  simpl andb. cbv iota.
  rewrite streak_loop_app by lia.
  destruct (streak_loop_spec (pre ++ [lastc]) (List.length pre))
    as [j [Hj [Ej _]]]; [lia|].
  rewrite Ej in *. simpl bind in *.
  rewrite at_index_app_l by (unfold length_; lia).
  exact Hq.
Qed.

Lemma streak_extends_witness :
  qualifyingStreakStart ([mkContraction 0 0 60000 60000 (5 # 10);
                          mkContraction 300000 300000 360000 60000 (5 # 10)]
                         ++ [mkContraction 600000 600000 660000 60000 (5 # 10)])
  = Normal (Some 0)
  /\ ONE_MIN_MS <= duration fourth_on_time
  /\ start fourth_on_time - 600000 <= FIVE_MIN_MS
  /\ qualifyingStreakStart (steady_three ++ [fourth_on_time]) = Normal (Some 0).
Proof.
  split; [reflexivity|]. split; [unfold ONE_MIN_MS; simpl; lia|].
  split; [unfold FIVE_MIN_MS; simpl; lia|].
  apply (streak_extends
           [mkContraction 0 0 60000 60000 (5 # 10);
            mkContraction 300000 300000 360000 60000 (5 # 10)]
           (mkContraction 600000 600000 660000 60000 (5 # 10))
           fourth_on_time 0).
  - reflexivity.
  - unfold ONE_MIN_MS. simpl. lia.
  - unfold FIVE_MIN_MS. simpl. lia.
Defined.

(** X6.  Restarting a streak.  When a new event of at least one minute is
    appended to a history that is empty, or whose last event is shorter than
    one minute, or whose last event started more than five minutes before
    it, the streak of the longer history starts at the new event. *)
Theorem streak_restarts (cs : list Contraction) (e : Contraction) :
  ONE_MIN_MS <= duration e ->
  (forall pre lastc, cs = pre ++ [lastc] ->
                     duration lastc < ONE_MIN_MS
                     \/ FIVE_MIN_MS < start e - start lastc) ->
  qualifyingStreakStart (cs ++ [e]) = Normal (Some (start e)).
Proof.
  intros He Hbreak.
  rewrite qualifyingStreakStart_snoc.
  destruct (Z.leb_spec ONE_MIN_MS (duration e)) as [_|Hbad]; [|lia].
  destruct (list_nil_or_snoc cs) as [->|[pre [lastc ->]]].
  - reflexivity.
  - assert (Hn : List.length (pre ++ [lastc]) = S (List.length pre)).
    { rewrite length_app. simpl. lia. }
    rewrite Hn. simpl streak_loop.
    replace (Z.of_nat (List.length pre) + 1) with (length_ (pre ++ [lastc]))
      by (unfold length_; lia).
    rewrite at_index_app_last.
    rewrite at_index_app_l
      by (unfold length_; rewrite length_app; simpl; lia).
    replace (Z.of_nat (List.length pre)) with (length_ pre) at 1 by reflexivity.
    rewrite at_index_app_last. simpl bind.
    assert (Etest : (ONE_MIN_MS <=? duration lastc)
                    && (start e - start lastc <=? FIVE_MIN_MS) = false).
    { apply andb_false_iff. rewrite !Z.leb_gt.
      destruct (Hbreak pre lastc eq_refl); [left|right]; lia. }
    rewrite Etest. simpl bind.
    change (Z.pos (Pos.of_succ_nat (List.length pre)))
      with (Z.of_nat (S (List.length pre))).
    replace (Z.of_nat (S (List.length pre))) with (length_ (pre ++ [lastc]))
      by (unfold length_; lia).
    rewrite at_index_app_last. reflexivity.
Qed.

Lemma streak_restarts_witness :
  ONE_MIN_MS <= duration fourth_late
  /\ qualifyingStreakStart (steady_three ++ [fourth_late])
     = Normal (Some 900001).
Proof.
  split; [unfold ONE_MIN_MS; simpl; lia|].
  apply (streak_restarts steady_three fourth_late).
  - unfold ONE_MIN_MS. simpl. lia.
  - intros pre lastc E. right.
    change steady_three
      with ([mkContraction 0 0 60000 60000 (5 # 10);
             mkContraction 300000 300000 360000 60000 (5 # 10)]
            ++ [mkContraction 600000 600000 660000 60000 (5 # 10)]) in E.
    apply app_inj_tail in E. destruct E as [_ <-].
    unfold FIVE_MIN_MS. simpl. lia.
Defined.

(** * Further properties of the pan offset *)

(** X7.  In follow mode, with [svgWidth] the extent the builder returns and
    a measured viewport not wider than the content: when the viewport is at
    least as wide as the axis, neither clamp is active and the offset is the
    difference [containerWidth - svgWidth] itself, the translation that
    brings the end of the content to the right edge of the viewport; when
    the viewport is not wider than the axis, the offset is the lower bound
    [-(svgWidth - Y_AXIS_W)]. *)
Theorem pan_offset_when_overflowing (cs : list Contraction) (a : option Z)
    (now k : Z) (cw : Q) :
  exists segs W,
    build_segments cs a now k = Normal (segs, W)
    /\ ((Y_AXIS_W <= cw)%Q -> (cw <= W)%Q -> (panX true cw W == cw - W)%Q)
    /\ ((0 < cw)%Q -> (cw <= Y_AXIS_W)%Q ->
        (panX true cw W == - (W - Y_AXIS_W))%Q).
Proof.
  destruct (svgWidth_lower_bound cs a now k) as [segs [W [E HW]]].
  exists segs, W. split; [exact E|].
  assert (Hax : (Y_AXIS_W < W)%Q) by (unfold Y_AXIS_W, LEAD_PX in *; qlra).
  split.
  - intros H1 H2. unfold panX.
    rewrite effectiveContainerWidth_measured by (unfold Y_AXIS_W in H1; qlra).
    destruct (Q.max_spec (- (W - Y_AXIS_W)) (Qmin 0 (cw - W))) as [[M1 ->]|[M1 ->]];
      destruct (Q.min_spec 0 (cw - W)) as [[M2 M3]|[M2 M3]];
      rewrite M3 in *; qlra.
  - intros H1 H2. unfold panX.
    rewrite effectiveContainerWidth_measured by exact H1.
    destruct (Q.max_spec (- (W - Y_AXIS_W)) (Qmin 0 (cw - W))) as [[M1 ->]|[M1 ->]];
      destruct (Q.min_spec 0 (cw - W)) as [[M2 M3]|[M2 M3]];
      rewrite M3 in *; qlra.
Qed.

Example pan_one_event_in_progress :
  (panX true 300 512 == -212)%Q /\ (panX true 20 512 == -468)%Q
  /\ (panX true 0 512 == 0)%Q /\ (panX true 600 512 == 0)%Q.
Proof. repeat split; reflexivity. Qed.

(** X8.  The earlier version of the offset, which returns 0 for an
    unmeasured viewport instead of substituting [svgWidth], computes the
    same offset as the current one on every extent that is at least the
    axis width. *)
Theorem panX_versions_agree (liveScroll : bool) (cw W : Q) :
  (Y_AXIS_W <= W)%Q -> (panX_v0 liveScroll cw W == panX liveScroll cw W)%Q.
Proof.
  intros HW. unfold panX_v0. destruct liveScroll; [|reflexivity].
  simpl andb. destruct (Qpos_bool cw) eqn:E.
  - apply Qpos_bool_true in E. unfold panX.
    rewrite effectiveContainerWidth_measured by exact E. reflexivity.
  - symmetry. apply panX_fits; [exact HW|].
    unfold effectiveContainerWidth. rewrite E. apply Qle_refl.
Qed.

Lemma panX_versions_agree_witness :
  (Y_AXIS_W <= 512)%Q /\ (panX_v0 true 0 512 == panX true 0 512)%Q.
Proof.
  split; [unfold Y_AXIS_W; qlra|].
  apply (panX_versions_agree true 0 512). unfold Y_AXIS_W. qlra.
Defined.

(** * Further properties of the amplitude curve and of the path builder *)

Section BellPath.

Local Open Scope R_scope.

Lemma raw_of_le_1 (x : R) : raw_of x <= 1.
Proof.
  unfold raw_of. rewrite <- exp_0.
  destruct (Req_dec ((x - 0.5) ^ 2) 0) as [E|N].
  - right. f_equal. rewrite exponent_eq, E. rlra.
  - left. apply exp_increasing. rewrite exponent_eq.
    assert (0 <= (x - 0.5) ^ 2) by (apply pow2_ge_0). rlra.
Qed.

Lemma gauss_unit_interval (x : R) : 0 <= gauss x <= 1.
Proof.
  pose proof floor_lt_1 as Hf.
  rewrite gauss_unfold. split; [apply Rmax_l|].
  apply Rmax_lub; [rlra|].
  pose proof (raw_of_le_1 x) as Hr.
  apply (Rmult_le_reg_r (1 - floor_)); [rlra|].
  unfold Rdiv. rewrite Rmult_assoc, Rinv_l by rlra. rlra.
Qed.

(** X9.  For every argument, and not only on [0, 1]: [gauss] takes its
    values in [0, 1], and is 0 at and outside the two ends of [0, 1]. *)
Theorem gauss_range (x : R) :
  0 <= gauss x <= 1
  /\ (x <= 0 \/ 1 <= x -> gauss x = 0).
Proof.
  pose proof floor_lt_1 as Hf.
  assert (Hinv : 0 < / (1 - floor_)) by (apply Rinv_0_lt_compat; rlra).
  split; [apply gauss_unit_interval|].
  rewrite gauss_unfold.
  intros Hout. apply Rmax_left.
  assert (Hr : raw_of x <= floor_).
  { destruct (Req_dec ((x - 0.5) ^ 2) (0.5 ^ 2)) as [E|N].
    - right. unfold raw_of, floor_. rewrite E. reflexivity.
    - left. rewrite <- raw_of_0. apply raw_of_mono.
      replace ((0 - 0.5) ^ 2) with (0.5 ^ 2) by rlra.
      destruct Hout; rnra. }
  unfold Rdiv.
  replace 0 with (0 * / (1 - floor_)) by rlra.
  apply Rmult_le_compat_r; rlra.
Qed.

Lemma Rfloor_spec (x : R) : IZR (Rfloor x) <= x < IZR (Rfloor x) + 1.
Proof.
  unfold Rfloor. rewrite minus_IZR.
  destruct (archimed x) as [H1 H2]. rlra.
Qed.

Lemma bell_maxStep_le_80 (progress : R) : (bell_maxStep progress <= 80)%Z.
Proof.
  unfold bell_maxStep.
  destruct (Rfloor_spec (80 * Rmin progress 1)) as [H1 _].
  pose proof (Rmin_r progress 1) as Hm.
  apply le_IZR. rlra.
Qed.

Lemma bell_maxStep_full (progress : R) :
  1 <= progress -> bell_maxStep progress = 80%Z.
Proof.
  intros Hp. pose proof (bell_maxStep_le_80 progress) as Hle.
  unfold bell_maxStep in *.
  destruct (Rfloor_spec (80 * Rmin progress 1)) as [_ H2].
  rewrite (Rmin_right progress 1 Hp) in *.
  assert (Hgt : (79 < Rfloor (80 * 1))%Z) by (apply lt_IZR; rlra).
  lia.
Qed.

Lemma bell_maxStep_small (progress : R) :
  progress < 1 / 80 -> (bell_maxStep progress < 1)%Z.
Proof.
  intros Hp. unfold bell_maxStep.
  destruct (Rfloor_spec (80 * Rmin progress 1)) as [H1 _].
  pose proof (Rmin_l progress 1) as Hm.
  apply lt_IZR. rlra.
Qed.

Lemma bell_maxStep_large (progress : R) :
  1 / 80 <= progress -> (1 <= bell_maxStep progress)%Z.
Proof.
  intros Hp. unfold bell_maxStep.
  destruct (Rfloor_spec (80 * Rmin progress 1)) as [_ H2].
  assert (Hm : 1 / 80 <= Rmin progress 1) by (apply Rmin_glb; rlra).
  assert (Hgt : (0 < Rfloor (80 * Rmin progress 1))%Z) by (apply lt_IZR; rlra).
  lia.
Qed.

Lemma step_indices_length (m : Z) :
  List.length (step_indices m) = Z.to_nat (m + 1).
Proof. unfold step_indices. rewrite length_map, length_seq. reflexivity. Qed.

Lemma step_indices_In (m i : Z) :
  In i (step_indices m) -> (0 <= i <= m)%Z.
Proof.
  unfold step_indices. rewrite in_map_iff.
  intros [n [<- Hn]]. apply in_seq in Hn. lia.
Qed.

Lemma bell_points_length (x0 w inten progress : R) :
  List.length (bell_points x0 w inten progress)
  = Z.to_nat (bell_maxStep progress + 1).
Proof. unfold bell_points. rewrite length_map. apply step_indices_length. Qed.

(** X11.  The path builder returns two empty paths exactly when [progress]
    is below 1/80, where fewer than two points are sampled; otherwise it
    samples [floor(80 * min(progress, 1)) + 1] points, between 2 and 81 of
    them and 81 when [progress >= 1], the stroke starts with [M], and the
    fill is the stroke followed by the closing segment along the baseline. *)
Theorem buildBellPath_cases (toFixed1 : R -> string)
    (x0 w inten progress : R) :
  (progress < 1 / 80 ->
   buildBellPath toFixed1 x0 w inten progress = (EmptyString, EmptyString))
  /\ (1 / 80 <= progress ->
      (2 <= List.length (bell_points x0 w inten progress) <= 81)%nat
      /\ exists body,
           buildBellPath toFixed1 x0 w inten progress
           = (String "M" body,
              (String "M" body ++ " L"
                 ++ toFixed1 (x0 + Rmin progress 1 * w) ++ ","
                 ++ PLOT_H_text ++ " L" ++ toFixed1 x0 ++ ","
                 ++ PLOT_H_text ++ " Z")%string))
  /\ (1 <= progress ->
      List.length (bell_points x0 w inten progress) = 81%nat).
Proof.
  pose proof (bell_points_length x0 w inten progress) as Hlen.
  pose proof (bell_maxStep_le_80 progress) as Hle.
  split; [|split].
  - intros Hp. pose proof (bell_maxStep_small progress Hp) as Hs.
    unfold buildBellPath. cbv zeta. rewrite length_map, Hlen.
    destruct (Z.ltb_spec (Z.of_nat (Z.to_nat (bell_maxStep progress + 1))) 2)
      as [_|Hbad]; [reflexivity|lia].
  - intros Hp. pose proof (bell_maxStep_large progress Hp) as Hl.
    split; [rewrite Hlen; lia|].
    unfold buildBellPath. cbv zeta. rewrite length_map, Hlen.
    destruct (Z.ltb_spec (Z.of_nat (Z.to_nat (bell_maxStep progress + 1))) 2)
      as [Hbad|_]; [lia|].
    eexists. reflexivity.
  - intros Hp. rewrite Hlen, (bell_maxStep_full progress Hp). reflexivity.
Qed.

Lemma Q2R_PLOT_H : Q2R PLOT_H = 198.
Proof. unfold PLOT_H, CHART_H, X_LABEL_H. rewrite Q2R_minus. rlra. Qed.

Lemma Q2R_PEAK_PAD : Q2R PEAK_PAD = 16.
Proof. unfold PEAK_PAD. rlra. Qed.

(** The plot box of a bump drawn from [x0] over [w] pixels. *)
Lemma bell_point_in_box (x0 w inten : R) (i : Z) :
  0 <= w -> 0 <= inten <= 1 -> (0 <= i <= 80)%Z ->
  in_plot_box x0 w (bell_point x0 w inten i).
Proof.
  intros Hw Hi Hrange.
  assert (H0 : 0 <= IZR i) by (apply IZR_le; lia).
  assert (H80 : IZR i <= 80) by (apply IZR_le; lia).
  unfold in_plot_box, bell_point. cbv zeta. simpl fst. simpl snd.
  set (t := IZR i / 80).
  assert (Ht : 0 <= t <= 1) by (unfold t; rlra).
  destruct (gauss_unit_interval t) as [Hg0 Hg1].
  rewrite Q2R_PLOT_H, Q2R_PEAK_PAD.
  assert (Hamp : 0 <= gauss t * inten <= 1) by rnra.
  split; [rnra|rlra].
Qed.

(** X12.  Every sampled point lies in the plot box of its bump: for a
    non-negative width and an intensity in [0, 1], its abscissa is between
    [x0] and [x0 + widthPx] and its ordinate between [PEAK_PAD] (the top
    padding) and [PLOT_H] (the baseline). *)
Theorem bell_points_in_box (x0 w inten progress : R) :
  0 <= w -> 0 <= inten <= 1 ->
  Forall (in_plot_box x0 w) (bell_points x0 w inten progress).
Proof.
  intros Hw Hi. unfold bell_points. apply Forall_forall.
  intros p Hp. apply in_map_iff in Hp. destruct Hp as [i [<- Hin]].
  apply step_indices_In in Hin.
  pose proof (bell_maxStep_le_80 progress) as Hle.
  apply bell_point_in_box; [exact Hw|exact Hi|lia].
Qed.

Lemma bell_points_in_box_witness :
  0 <= 240 /\ 0 <= 0.5 <= 1
  /\ Forall (in_plot_box 52 240) (bell_points 52 240 0.5 1).
Proof.
  split; [rlra|]. split; [rlra|].
  apply (bell_points_in_box 52 240 0.5 1); rlra.
Defined.

Lemma bell_point_at (x0 w inten : R) (i : Z) (t g : R) :
  IZR i / 80 = t -> gauss t = g ->
  bell_point x0 w inten i
  = (x0 + t * w, Q2R PLOT_H - g * inten * (Q2R PLOT_H - Q2R PEAK_PAD)).
Proof. intros <- <-. reflexivity. Qed.

(** X13.  A fully revealed curve ([progress >= 1]) has 81 points; it starts
    on the baseline at [x0], peaks at its 41st point, mid-way, at a height
    of [intensity * (PLOT_H - PEAK_PAD)] above the baseline, and ends on the
    baseline at [x0 + widthPx]. *)
Theorem bell_curve_landmarks (x0 w inten progress : R) (d : R * R) :
  1 <= progress ->
  nth 0 (bell_points x0 w inten progress) d = (x0, Q2R PLOT_H)
  /\ nth 40 (bell_points x0 w inten progress) d
     = (x0 + w / 2, Q2R PLOT_H - inten * (Q2R PLOT_H - Q2R PEAK_PAD))
  /\ nth 80 (bell_points x0 w inten progress) d = (x0 + w, Q2R PLOT_H).
Proof.
  intros Hp. unfold bell_points.
  rewrite (bell_maxStep_full progress Hp).
  change (step_indices 80)
    with (map Z.of_nat (seq 0 81)).
  assert (G0 : gauss 0 = 0).
  { rewrite gauss_inside by rlra. rewrite raw_of_0. unfold Rdiv.
    replace (floor_ - floor_) with 0 by rlra. apply Rmult_0_l. }
  assert (G1 : gauss 1 = 0).
  { rewrite gauss_inside by rlra. rewrite raw_of_1. unfold Rdiv.
    replace (floor_ - floor_) with 0 by rlra. apply Rmult_0_l. }
  assert (Gh : gauss 0.5 = 1).
  { pose proof floor_lt_1. rewrite gauss_inside by rlra.
    rewrite raw_of_half. unfold Rdiv. apply Rinv_r. rlra. }
  split; [|split].
  - change (nth 0 (map (bell_point x0 w inten) (map Z.of_nat (seq 0 81))) d)
      with (bell_point x0 w inten 0).
    rewrite (bell_point_at x0 w inten 0 0 0); [|rlra|exact G0].
    f_equal; rlra.
  - change (nth 40 (map (bell_point x0 w inten) (map Z.of_nat (seq 0 81))) d)
      with (bell_point x0 w inten 40).
    rewrite (bell_point_at x0 w inten 40 0.5 1); [|rlra|exact Gh].
    f_equal; rlra.
  - change (nth 80 (map (bell_point x0 w inten) (map Z.of_nat (seq 0 81))) d)
      with (bell_point x0 w inten 80).
    rewrite (bell_point_at x0 w inten 80 1 0); [|rlra|exact G1].
    f_equal; rlra.
Qed.

Lemma bell_curve_landmarks_witness :
  1 <= 1
  /\ nth 40 (bell_points 52 240 0.5 1) (0, 0)
     = (52 + 240 / 2, Q2R PLOT_H - 0.5 * (Q2R PLOT_H - Q2R PEAK_PAD)).
Proof.
  split; [rlra|].
  exact (proj1 (proj2 (bell_curve_landmarks 52 240 0.5 1 (0, 0)
                         ltac:(rlra)))).
Defined.

Lemma Q2R_unit (q : Q) : (0 <= q)%Q -> (q <= 1)%Q -> 0 <= Q2R q <= 1.
Proof.
  intros H0 H1. apply Qle_Rle in H0. apply Qle_Rle in H1.
  assert (E0 : Q2R 0 = 0) by (unfold Q2R; simpl; rlra).
  assert (E1 : Q2R 1 = 1) by (unfold Q2R; simpl; rlra).
  rewrite E0 in H0. rewrite E1 in H1. split; assumption.
Qed.

Lemma Q2R_bump_width (w : Q) : (MIN_BELL_PX <= w)%Q -> 0 <= Q2R w.
Proof.
  intros H. apply Qle_Rle in H.
  assert (E : Q2R MIN_BELL_PX = 8) by (unfold MIN_BELL_PX; rlra).
  rewrite E in H. rlra.
Qed.

Lemma full_curve_ok (x0 w inten progress : R) :
  0 <= w -> 0 <= inten <= 1 -> 1 <= progress ->
  List.length (bell_points x0 w inten progress) = 81%nat
  /\ Forall (in_plot_box x0 w) (bell_points x0 w inten progress).
Proof.
  intros Hw Hi Hp. split.
  - rewrite bell_points_length, (bell_maxStep_full progress Hp). reflexivity.
  - unfold bell_points. apply Forall_forall.
    intros p Hin. apply in_map_iff in Hin. destruct Hin as [i [<- Hin]].
    apply step_indices_In in Hin.
    pose proof (bell_maxStep_le_80 progress) as Hle.
    apply bell_point_in_box; [exact Hw|exact Hi|lia].
Qed.

Lemma history_segments_curves (rest : list Contraction) :
  Forall (fun c => (0 <= intensity c)%Q /\ (intensity c <= 1)%Q) rest ->
  forall x prev, Forall seg_curve_ok (history_segments x prev rest).
Proof.
  induction 1 as [|c rest' [Hc0 Hc1] _ IH]; intros x prev; [constructor|].
  assert (Hbell : forall x', seg_curve_ok
                    (Bell x' (Qmax MIN_BELL_PX (secPx (duration c))) c)).
  { intros x'. simpl. apply full_curve_ok.
    - apply Q2R_bump_width, Q.le_max_l.
    - apply Q2R_unit; assumption.
    - rlra. }
  destruct prev as [p|]; simpl history_segments.
  - constructor; [exact I|]. constructor; [apply Hbell|apply IH].
  - constructor; [apply Hbell|apply IH].
Qed.

Lemma active_segments_curves (x : Q) (lastc : option Contraction)
    (a now k : Z) :
  (1 <= k <= 10)%Z ->
  Forall seg_curve_ok (active_segments x lastc a now k).
Proof.
  intros Hk.
  assert (Hact : forall x', seg_curve_ok
                   (ActiveBell x' (Qmax MIN_BELL_PX (secPx (now - a))) 1%Q
                      (inject_Z k / 10)%Q)).
  { intros x'. simpl.
    destruct (slider_intensity_range (inject_Z k / 10)%Q) as [H1 [H2 _]];
      [exists k; split; [exact Hk|reflexivity]|].
    apply full_curve_ok.
    - apply Q2R_bump_width, Q.le_max_l.
    - apply Q2R_unit; [|exact H2].
      apply Qle_trans with (1 # 10)%Q; [discriminate|exact H1].
    - unfold Q2R. simpl. rlra. }
  destruct lastc as [l|]; simpl active_segments.
  - constructor; [exact I|]. constructor; [apply Hact|constructor].
  - constructor; [apply Hact|constructor].
Qed.

(** X22.  In every state reachable from a session whose loaded events have
    an intensity between 0 and 1, every bump of the rendered chart, stored
    or in progress, is drawn with 81 points that all lie inside the bump's
    own box: between its [x] and [x + widthPx], and between the top padding
    and the baseline. *)
Theorem chart_curves_in_box (loaded : list Contraction) (s : State) :
  Forall (fun c => (0 <= intensity c)%Q /\ (intensity c <= 1)%Q) loaded ->
  reachable loaded s ->
  exists segs W,
    render_segments s = Normal (segs, W) /\ Forall seg_curve_ok segs.
Proof.
  intros Hloaded Hreach.
  pose proof (reachable_intensity_range loaded s Hreach) as Hk.
  assert (Hhist : Forall (fun c => (0 <= intensity c)%Q /\ (intensity c <= 1)%Q)
                         (st_contractions s)).
  { pose proof (reachable_history loaded s Hreach) as Hh.
    rewrite Forall_forall in Hh, Hloaded. apply Forall_forall.
    intros c Hc. destruct (Hh c Hc) as [Hin|Hsl]; [apply Hloaded; exact Hin|].
    destruct (slider_intensity_range _ Hsl) as [H1 [H2 _]].
    split; [|exact H2].
    apply Qle_trans with (1 # 10)%Q; [discriminate|exact H1]. }
  unfold render_segments.
  pose proof (build_segments_explicit (st_contractions s) (st_activeStart s)
                (st_now s) (st_intensity s)) as E.
  cbv zeta in E. eexists _, _. split; [exact E|].
  constructor; [exact I|].
  apply Forall_app. split; [|constructor; [exact I|constructor]].
  unfold middle_segments. cbv zeta.
  destruct (st_activeStart s) as [t|];
    [|apply history_segments_curves; exact Hhist].
  destruct (truthy (Some t)); [|apply history_segments_curves; exact Hhist].
  apply Forall_app. split.
  - apply history_segments_curves; exact Hhist.
  - apply active_segments_curves. exact Hk.
Qed.

Lemma chart_curves_in_box_witness :
  Forall (fun c => (0 <= intensity c)%Q /\ (intensity c <= 1)%Q) []
  /\ reachable [] slider_at_10
  /\ exists segs W,
       render_segments slider_at_10 = Normal (segs, W)
       /\ Forall seg_curve_ok segs.
Proof.
  split; [constructor|]. split; [exact slider_at_10_reachable|].
  exact (chart_curves_in_box [] slider_at_10 (Forall_nil _)
           slider_at_10_reachable).
Defined.

End BellPath.

(** * Session statistics, badges and the log table *)

Lemma elem_snoc (pre : list Contraction) (c : Contraction) :
  elem (pre ++ [c]) (length_ (pre ++ [c]) - 1) = Some c.
Proof.
  unfold elem, length_. rewrite length_app. simpl List.length.
  destruct (Z.ltb_spec (Z.of_nat (List.length pre + 1) - 1) 0) as [H|_]; [lia|].
  replace (Z.to_nat (Z.of_nat (List.length pre + 1) - 1)) with (List.length pre)
    by lia.
  rewrite nth_error_app2 by lia. rewrite Nat.sub_diag. reflexivity.
Qed.

Lemma consecutive_diffs_snoc (xs : list Z) (a b : Z) :
  consecutive_diffs (xs ++ [a; b])
  = consecutive_diffs (xs ++ [a]) ++ [b - a].
Proof.
  induction xs as [|x t IH]; [reflexivity|].
  destruct t as [|y t'].
  - reflexivity.
  - change (consecutive_diffs ((x :: y :: t') ++ [a; b]))
      with ((y - x) :: consecutive_diffs ((y :: t') ++ [a; b])).
    change (consecutive_diffs ((x :: y :: t') ++ [a]))
      with ((y - x) :: consecutive_diffs ((y :: t') ++ [a])).
    rewrite IH. reflexivity.
Qed.

(** X14.  [lastInterval] is the last of the consecutive start differences
    that [avgRecentInterval] averages, and is [null] exactly when the
    history has fewer than two events. *)
Theorem lastInterval_is_last_difference (cs : list Contraction) :
  lastInterval cs = last_opt (consecutive_diffs (map start cs))
  /\ (lastInterval cs = None <-> (List.length cs < 2)%nat).
Proof.
  destruct (list_nil_or_snoc cs) as [->|[pre [l ->]]].
  - split; [reflexivity|]. split; [intros _; simpl; lia|reflexivity].
  - destruct (list_nil_or_snoc pre) as [->|[pre' [sl ->]]].
    + split; [reflexivity|]. split; [intros _; simpl; lia|reflexivity].
    + assert (E : lastInterval ((pre' ++ [sl]) ++ [l]) = Some (start l - start sl)).
      { unfold lastInterval. cbv zeta. rewrite elem_snoc.
        replace (length_ ((pre' ++ [sl]) ++ [l]) - 2)
          with (length_ (pre' ++ [sl]) - 1)
          by (unfold length_; rewrite !length_app; simpl; lia).
        unfold elem.
        destruct (Z.ltb_spec (length_ (pre' ++ [sl]) - 1) 0) as [H|_];
          [unfold length_ in H; rewrite length_app in H; simpl in H; lia|].
        rewrite nth_error_app1
          by (unfold length_; rewrite length_app; simpl; lia).
        pose proof (elem_snoc pre' sl) as Es. unfold elem in Es.
        destruct (Z.ltb_spec (length_ (pre' ++ [sl]) - 1) 0) as [H|_];
          [unfold length_ in H; rewrite length_app in H; simpl in H; lia|].
        rewrite Es. reflexivity. }
      rewrite E. split.
      * rewrite <- app_assoc. simpl app. rewrite map_app. simpl map.
        rewrite consecutive_diffs_snoc, last_opt_snoc. reflexivity.
      * split; [intros H; discriminate H|].
        rewrite !length_app. simpl. lia.
Qed.

(** X15.  The average interval only depends on the two ends of the history:
    for a history [first :: mid ++ [lastc]] it is the time from the start of
    the first event to the start of the last, divided by the number of
    events minus one. *)
Theorem avgRecentInterval_telescopes (first lastc : Contraction)
    (mid : list Contraction) :
  avgRecentInterval (first :: mid ++ [lastc])
  = Normal (Some (inject_Z (start lastc - start first)
                  / inject_Z (Z.of_nat (S (List.length mid))))%Q).
Proof.
  unfold avgRecentInterval. rewrite allIntervals_spec. unfold bind.
  set (l := consecutive_diffs (map start (first :: mid ++ [lastc]))).
  assert (Hlen : List.length l = S (List.length mid)).
  { unfold l. rewrite consecutive_diffs_length. simpl.
    rewrite length_map, length_app. simpl. lia. }
  assert (Hsum : sumZ l = start lastc - start first).
  { unfold l. rewrite sumZ_fold_right. simpl map.
    rewrite consecutive_diffs_sum, map_app. simpl map.
    rewrite last_last. reflexivity. }
  rewrite Hlen, Hsum.
  destruct (Z.eqb_spec (Z.of_nat (S (List.length mid))) 0) as [H|_]; [lia|].
  reflexivity.
Qed.

Lemma last_opt_cons {A : Type} (x : A) (t : list A) :
  last_opt (x :: t) = match last_opt t with Some y => Some y | None => Some x end.
Proof.
  destruct t as [|y t']; [reflexivity|].
  change (last_opt (x :: y :: t')) with (last_opt (y :: t')).
  destruct (last_opt (y :: t')) eqn:E; [reflexivity|].
  exfalso. revert y E. induction t' as [|z t'' IH]; intros y E.
  - discriminate E.
  - apply (IH z). exact E.
Qed.

Lemma rows_chrono_snoc (cs : list Contraction) :
  forall (n : Z) (prev : option Contraction) (c : Contraction),
    rows_chrono n prev (cs ++ [c])
    = rows_chrono n prev cs
      ++ [mkLogRow (n + Z.of_nat (List.length cs)) c
            (formatDuration (duration c))
            (since_previous
               (match last_opt cs with Some p => Some p | None => prev end) c)
            (js_round (intensity c * 10)%Q)].
Proof.
  induction cs as [|x t IH]; intros n prev c.
  - simpl. rewrite Z.add_0_r. reflexivity.
  - change ((x :: t) ++ [c]) with (x :: (t ++ [c])).
    cbn [rows_chrono app]. rewrite IH. rewrite last_opt_cons.
    f_equal. f_equal.
    replace (n + 1 + Z.of_nat (List.length t))
      with (n + Z.of_nat (List.length (x :: t)))
      by (simpl List.length; lia).
    destruct (last_opt t); reflexivity.
Qed.

(** The reversed, index-computing loop, against the chronological rows. *)
Lemma map_rows_spec (rest : list Contraction) :
  forall done_ : list Contraction,
    map_rows (rev rest ++ rev done_) rest (length_ done_)
    = Normal (rev (rows_chrono 1 None (rev rest))).
Proof.
  induction rest as [|c rest' IH]; intros done_.
  - reflexivity.
  - cbn [map_rows].
    assert (Hcs : rev (c :: rest') ++ rev done_ = rev rest' ++ rev (done_ ++ [c])).
    { simpl rev. rewrite rev_app_distr. simpl. rewrite <- app_assoc. reflexivity. }
    assert (Hlen : length_ done_ + 1 = length_ (done_ ++ [c])).
    { unfold length_. rewrite length_app. simpl. lia. }
    assert (Horig : length_ (rev (c :: rest') ++ rev done_) - 1 - length_ done_
                    = length_ (rev rest')).
    { unfold length_. simpl rev. rewrite !length_app, !length_rev. simpl. lia. }
    assert (Hrow : log_row (rev (c :: rest') ++ rev done_) c (length_ done_)
                   = Normal (mkLogRow (1 + Z.of_nat (List.length (rev rest'))) c
                               (formatDuration (duration c))
                               (since_previous (last_opt (rev rest')) c)
                               (js_round (intensity c * 10)%Q))).
    { unfold log_row. cbv zeta. rewrite Horig.
      destruct (list_nil_or_snoc (rev rest')) as [E|[pre [p E]]]; rewrite E.
      - reflexivity.
      - assert (Hl : length_ (pre ++ [p]) = length_ pre + 1)
          by (unfold length_; rewrite length_app; simpl; lia).
        rewrite Hl.
        destruct (Z.eqb_spec (length_ pre + 1) 0) as [H|_];
          [unfold length_ in H; lia|].
        replace (length_ pre + 1 - 1) with (length_ pre) by lia.
        simpl rev. rewrite E. rewrite <- !app_assoc. simpl app.
        rewrite at_index_app_last. simpl bind.
        rewrite last_opt_snoc. f_equal. f_equal.
        unfold length_. rewrite length_app. cbn [List.length]. lia. }
    rewrite Hrow. cbn [bind].
    rewrite Hlen, Hcs, IH. cbn [bind].
    change (rev (c :: rest')) with (rev rest' ++ [c]).
    rewrite rows_chrono_snoc, rev_app_distr. cbn [rev app].
    destruct (last_opt (rev rest')); reflexivity.
Qed.

(** X16.  The log table never reads out of range, and lists the history
    newest first: read from the bottom, its rows are numbered 1, 2, ..., show
    the events in chronological order with their formatted duration, and the
    Frequency cell shows the formatted time since the start of the event
    before it, except that it shows the dash for the first event and for an
    event whose start equals the start of the one before it (a difference
    of 0 is falsy). *)
Theorem log_rows_chronological (cs : list Contraction) :
  log_rows cs = Normal (rev (rows_chrono 1 None cs)).
Proof.
  unfold log_rows.
  pose proof (map_rows_spec (rev cs) []) as H.
  rewrite rev_involutive in H. simpl rev in H. rewrite app_nil_r in H.
  exact H.
Qed.

Example log_rows_two_events :
  log_rows [ mkContraction 1000 1000 61000 60000 (5 # 10);
             mkContraction 301000 301000 361000 60000 (7 # 10) ]
  = Normal [ mkLogRow 2 (mkContraction 301000 301000 361000 60000 (7 # 10))
               "1m 0s" (Some "5m 0s"%string) 7;
             mkLogRow 1 (mkContraction 1000 1000 61000 60000 (5 # 10))
               "1m 0s" None 5 ].
Proof. reflexivity. Qed.

(** Two events that start at the same millisecond: the second row shows
    the dash, like the first. *)
Example log_rows_equal_starts :
  log_rows [ mkContraction 1000 1000 3000 2000 (5 # 10);
             mkContraction 1000 1000 4000 3000 (5 # 10) ]
  = Normal [ mkLogRow 2 (mkContraction 1000 1000 4000 3000 (5 # 10))
               "3s" None 5;
             mkLogRow 1 (mkContraction 1000 1000 3000 2000 (5 # 10))
               "2s" None 5 ].
Proof. reflexivity. Qed.

Lemma js_round_integer (n : Z) : js_round (inject_Z n / 10 * 10)%Q = n.
Proof.
  unfold js_round.
  assert (E : (inject_Z n / 10 * 10 + (1 # 2) == inject_Z n + (1 # 2))%Q)
    by field.
  rewrite E.
  pose proof (Qfloor_le (inject_Z n + (1 # 2))) as Hle.
  pose proof (Qlt_floor (inject_Z n + (1 # 2))) as Hlt.
  set (f := Qfloor (inject_Z n + (1 # 2))) in *.
  assert (H1 : (inject_Z f < inject_Z (n + 1))%Q).
  { rewrite inject_Z_plus. change (inject_Z 1) with 1%Q. qlra. }
  assert (H2 : (inject_Z n < inject_Z (f + 1))%Q) by qlra.
  rewrite <- Zlt_Qlt in H1, H2. lia.
Qed.

(** X17.  The intensity column of the log shows the slider position the
    event was recorded with: for every event that the stop command appends,
    [Math.round(c.intensity * 10)] is the intensity setting at that time. *)
Theorem log_shows_recorded_setting (s : State) (dateNow : Z) (e : Contraction) :
  st_contractions (toggleContraction dateNow s) = st_contractions s ++ [e] ->
  js_round (intensity e * 10)%Q = st_intensity s.
Proof.
  intros He.
  destruct (toggleContraction_history dateNow s) as [Hsame|[a [_ Happ]]].
  - rewrite Hsame in He. rewrite <- (app_nil_r (st_contractions s)) in He at 1.
    apply app_inv_head in He. discriminate He.
  - rewrite Happ in He. apply app_inv_head in He.
    injection He as <-. simpl intensity. apply js_round_integer.
Qed.

Lemma log_shows_recorded_setting_witness :
  st_contractions (toggleContraction 7020 slider_at_10)
  = st_contractions slider_at_10
    ++ [mkContraction 5000 5000 7000 2000 (inject_Z 10 / 10)%Q]
  /\ js_round (inject_Z 10 / 10 * 10)%Q = 10.
Proof.
  split; [reflexivity|].
  exact (log_shows_recorded_setting slider_at_10 7020
           (mkContraction 5000 5000 7000 2000 (inject_Z 10 / 10)%Q) eq_refl).
Defined.

(** * A steady history meets every tile *)

Lemma steady_included (cs : list Contraction) :
  Forall qualifies_alone cs -> steady cs ->
  forall i, (S i < List.length cs)%nat -> included_step cs i.
Proof.
  induction cs as [|c t IH]; intros Hq Hs i Hi; [simpl in Hi; lia|].
  destruct t as [|c' t']; [simpl in Hi; lia|].
  destruct Hs as [Hint Hs']. inversion Hq as [|? ? Hc Hq']; subst.
  destruct i as [|i'].
  - exists c, c'. repeat split; assumption.
  - destruct (IH Hq' Hs' i') as [x [y [Ex [Ey [H1 H2]]]]];
      [simpl in Hi |- *; lia|].
    exists x, y. repeat split; assumption.
Qed.

Lemma steady_diffs (cs : list Contraction) :
  steady cs ->
  Forall (fun d => d <= FIVE_MIN_MS) (consecutive_diffs (map start cs)).
Proof.
  induction cs as [|c t IH]; intros Hs; [constructor|].
  destruct t as [|c' t']; [constructor|].
  destruct Hs as [Hint Hs'].
  change (consecutive_diffs (map start (c :: c' :: t')))
    with ((start c' - start c) :: consecutive_diffs (map start (c' :: t'))).
  constructor; [exact Hint|apply IH; exact Hs'].
Qed.

Lemma sum_upper_bound (l : list Z) (b : Z) :
  Forall (fun d => d <= b) l ->
  fold_right Z.add 0 l <= b * Z.of_nat (List.length l).
Proof.
  induction 1 as [|d t Hd _ IH]; simpl fold_right; [simpl; lia|].
  change (List.length (d :: t)) with (S (List.length t)). nia.
Qed.

Lemma sum_lower_bound (l : list Z) (b : Z) :
  Forall (fun d => b <= d) l ->
  b * Z.of_nat (List.length l) <= fold_right Z.add 0 l.
Proof.
  induction 1 as [|d t Hd _ IH]; simpl fold_right; [simpl; lia|].
  change (List.length (d :: t)) with (S (List.length t)). nia.
Qed.

Lemma mean_le (sum len b : Z) :
  0 < len -> sum <= b * len ->
  Qle_bool (inject_Z sum / inject_Z len) (inject_Z b) = true.
Proof.
  intros Hlen Hsum. apply Qle_bool_iff.
  apply Qle_shift_div_r.
  - change 0%Q with (inject_Z 0). rewrite <- Zlt_Qlt. exact Hlen.
  - rewrite <- inject_Z_mult, <- Zle_Qle. exact Hsum.
Qed.

Lemma mean_ge (sum len b : Z) :
  0 < len -> b * len <= sum ->
  Qle_bool (inject_Z b) (inject_Z sum / inject_Z len) = true.
Proof.
  intros Hlen Hsum. apply Qle_bool_iff.
  apply Qle_shift_div_l.
  - change 0%Q with (inject_Z 0). rewrite <- Zlt_Qlt. exact Hlen.
  - rewrite <- inject_Z_mult, <- Zle_Qle. exact Hsum.
Qed.

(** X18.  When every event of a non-empty history lasts at least one minute
    and starts at most five minutes after the start of the one before it,
    the three tiles agree: the streak starts at the first event, the Duration
    tile is met, and with at least two events the Frequency tile is met. *)
Theorem steady_history_meets_tiles (first : Contraction)
    (rest : list Contraction) :
  Forall qualifies_alone (first :: rest) -> steady (first :: rest) ->
  qualifyingStreakStart (first :: rest) = Normal (Some (start first))
  /\ durationMet (avgRecentDuration (first :: rest)) = true
  /\ (rest <> [] ->
      exists v, avgRecentInterval (first :: rest) = Normal (Some v)
                /\ frequencyMet (Some v) = true).
Proof.
  intros Hq Hs. split; [|split].
  - destruct (list_nil_or_snoc (first :: rest)) as [E|[pre [lastc E]]];
      [discriminate E|].
    assert (Hfirst : at_index (first :: rest) 0 = Normal first) by reflexivity.
    pose proof (steady_included _ Hq Hs) as Hinc.
    assert (Hlast : qualifies_alone lastc).
    { rewrite E in Hq. apply Forall_app in Hq. destruct Hq as [_ Hl].
      inversion Hl; assumption. }
    rewrite E in *. rewrite qualifyingStreakStart_snoc.
    unfold qualifies_alone in Hlast.
    destruct (Z.leb_spec ONE_MIN_MS (duration lastc)) as [_|Hbad]; [|lia].
    assert (Hn : List.length (pre ++ [lastc]) = S (List.length pre)).
    { rewrite length_app. simpl. lia. }
    destruct (streak_loop_spec (pre ++ [lastc]) (List.length pre))
      as [j [Hj [Ej [_ Hstop]]]]; [lia|].
    rewrite Ej. cbn [bind].
    destruct j as [|j'].
    + change (Z.of_nat 0) with 0. rewrite Hfirst. reflexivity.
    + exfalso. destruct Hstop as [H0|Hno]; [discriminate H0|].
      apply Hno.
      replace (S j' - 1)%nat with j' by lia.
      apply Hinc. lia.
  - unfold avgRecentDuration, length_.
    destruct (Z.eqb_spec (Z.of_nat (List.length (first :: rest))) 0) as [H|_];
      [simpl List.length in H; lia|].
    unfold durationMet. apply mean_ge; [simpl List.length; lia|].
    rewrite sumDurations_fold_right.
    rewrite <- (length_map duration).
    apply sum_lower_bound.
    apply Forall_map. exact Hq.
  - intros Hne. unfold avgRecentInterval. rewrite allIntervals_spec. cbn [bind].
    pose proof (consecutive_diffs_length (map start (first :: rest))) as Hlen.
    rewrite length_map in Hlen.
    pose proof (steady_diffs _ Hs) as Hd.
    set (l := consecutive_diffs (map start (first :: rest))) in *.
    assert (Hpos : 0 < Z.of_nat (List.length l)).
    { rewrite Hlen. destruct rest; [contradiction|simpl List.length; lia]. }
    destruct (Z.eqb_spec (Z.of_nat (List.length l)) 0) as [H|_]; [lia|].
    eexists. split; [reflexivity|].
    unfold frequencyMet. apply mean_le; [exact Hpos|].
    rewrite sumZ_fold_right. apply sum_upper_bound. exact Hd.
Qed.

Lemma steady_history_meets_tiles_witness :
  Forall qualifies_alone steady_three /\ steady steady_three
  /\ qualifyingStreakStart steady_three = Normal (Some 0)
  /\ durationMet (avgRecentDuration steady_three) = true.
Proof.
  assert (Hq : Forall qualifies_alone steady_three).
  { repeat constructor; unfold qualifies_alone, ONE_MIN_MS; simpl; lia. }
  assert (Hs : steady steady_three).
  { simpl. unfold FIVE_MIN_MS. repeat split; lia. }
  split; [exact Hq|]. split; [exact Hs|].
  destruct (steady_history_meets_tiles _ _ Hq Hs) as [H1 [H2 _]].
  split; [exact H1|exact H2].
Defined.

(** * Formatting and the begin/end sequence *)

(** X19.  For a non-negative number of milliseconds, [formatDuration] shows
    the duration rounded to the nearest second (halves up): minutes [m] and
    seconds [r] with [0 <= r < 60] such that [ms] is within half a second of
    [60 m + r] seconds; the minutes are shown only when [m > 0]. *)
Theorem formatDuration_rounds (ms : Z) :
  0 <= ms ->
  exists m r,
    0 <= m /\ 0 <= r < 60
    /\ 1000 * (60 * m + r) - 500 <= ms < 1000 * (60 * m + r) + 500
    /\ formatDuration ms
       = if 0 <? m
         then (showZ m ++ "m " ++ showZ r ++ "s")%string
         else (showZ r ++ "s")%string.
Proof.
  intros Hms.
  set (s := (ms + 500) / 1000).
  assert (Hs : 1000 * s <= ms + 500 < 1000 * s + 1000).
  { unfold s. pose proof (Z.div_mod (ms + 500) 1000 ltac:(lia)) as Hdm.
    pose proof (Z.mod_pos_bound (ms + 500) 1000 ltac:(lia)). lia. }
  assert (Hs0 : 0 <= s) by lia.
  pose proof (Z.div_mod s 60 ltac:(lia)) as Hdm.
  pose proof (Z.mod_pos_bound s 60 ltac:(lia)) as Hmod.
  exists (s / 60), (s mod 60).
  split; [apply Z.div_pos; lia|]. split; [exact Hmod|]. split; [lia|].
  unfold formatDuration. fold s. cbv zeta.
  rewrite Z.rem_mod_nonneg by lia.
  destruct (Z.ltb_spec 0 (s / 60)) as [Hm|Hm]; [reflexivity|].
  assert (Hz : s / 60 = 0) by (pose proof (Z.div_pos s 60); lia).
  replace (s mod 60) with s by lia. reflexivity.
Qed.

Lemma formatDuration_rounds_witness :
  0 <= 59500
  /\ exists m r,
       0 <= m /\ 0 <= r < 60
       /\ 1000 * (60 * m + r) - 500 <= 59500 < 1000 * (60 * m + r) + 500
       /\ formatDuration 59500
          = if 0 <? m
            then (showZ m ++ "m " ++ showZ r ++ "s")%string
            else (showZ r ++ "s")%string.
Proof.
  split; [lia|]. apply (formatDuration_rounds 59500). lia.
Defined.

Example formatDuration_examples :
  formatDuration 59499 = "59s"%string
  /\ formatDuration 59500 = "1m 0s"%string
  /\ formatDuration 0 = "0s"%string
  /\ formatDuration 3725400 = "62m 5s"%string.
Proof. repeat split; reflexivity. Qed.

Lemma begin_tick_end_witness :
  isActive (initialState [] 4000) = false /\ 5000 <> 0
  /\ st_contractions
       (toggleContraction 6050
          (setNow 6000 (toggleContraction 5000 (initialState [] 4000))))
     = [mkContraction 5000 5000 6000 1000 (inject_Z 5 / 10)%Q].
Proof.
  split; [reflexivity|]. split; [lia|].
  exact (proj2 (begin_tick_end (initialState [] 4000) 5000 6000 6050
                  eq_refl ltac:(lia)) ltac:(lia)).
Defined.

(** * Rests and intervals along a run *)

Lemma chronological_rests (cs : list Contraction) :
  chronological cs ->
  forall prev,
    match prev with
    | Some p => match cs with c :: _ => end_ p <= start c | [] => True end
    | None => True
    end ->
    Forall (fun r => 0 <= r) (rest_gaps prev cs).
Proof.
  induction cs as [|c t IH]; intros Hc prev Hp; [constructor|].
  assert (Hnext : Forall (fun r => 0 <= r) (rest_gaps (Some c) t)).
  { destruct t as [|c' t']; [constructor|].
    destruct Hc as [H1 H2]. apply IH; [exact H2|exact H1]. }
  destruct prev as [p|]; simpl rest_gaps; [|exact Hnext].
  constructor; [lia|exact Hnext].
Qed.

Lemma chronological_intervals (cs : list Contraction) :
  chronological cs -> Forall well_timed cs ->
  Forall (fun d => 1000 <= d) (consecutive_diffs (map start cs)).
Proof.
  induction cs as [|c t IH]; intros Hc Hw; [constructor|].
  destruct t as [|c' t']; [constructor|].
  destruct Hc as [H1 H2]. inversion Hw as [|? ? Hwc Hw']; subst.
  change (consecutive_diffs (map start (c :: c' :: t')))
    with ((start c' - start c) :: consecutive_diffs (map start (c' :: t'))).
  constructor; [|apply IH; assumption].
  destruct Hwc as [_ [Hd Hlen]]. lia.
Qed.

(** X21.  Along a run with a clock that never goes back, started from a
    chronological history of well-timed events: every rest that labels a gap
    of the chart is non-negative, the rest before a contraction in progress
    is non-negative, and consecutive events start at least one second
    apart. *)
Theorem run_rests_nonnegative (loaded : list Contraction) (clock : Z)
    (s : State) :
  chronological loaded -> Forall well_timed loaded ->
  run loaded clock s ->
  Forall (fun r => 0 <= r) (rest_gaps None (st_contractions s))
  /\ (forall a lastc,
        st_activeStart s = Some a ->
        last_opt (st_contractions s) = Some lastc ->
        0 <= a - end_ lastc)
  /\ Forall (fun d => 1000 <= d)
            (consecutive_diffs (map start (st_contractions s))).
Proof.
  intros Hchr Hwt Hrun.
  destruct (run_clock_invariant loaded clock s Hchr Hwt Hrun)
    as [_ [_ [Hact [Hc Hw]]]].
  split; [apply chronological_rests; [exact Hc|exact I]|].
  split; [|apply chronological_intervals; assumption].
  intros a lastc Ha Hlast.
  destruct (Hact a Ha) as [_ Hbefore].
  assert (Hin : In lastc (st_contractions s)).
  { destruct (list_nil_or_snoc (st_contractions s)) as [E|[pre [l E]]];
      rewrite E in *; [discriminate Hlast|].
    rewrite last_opt_snoc in Hlast. injection Hlast as <-.
    apply in_or_app. right. left. reflexivity. }
  rewrite Forall_forall in Hbefore. specialize (Hbefore lastc Hin). lia.
Qed.

Lemma run_rests_nonnegative_witness :
  chronological [] /\ Forall well_timed [] /\ run [] 400000 two_contractions_run
  /\ (forall a lastc,
        st_activeStart two_contractions_run = Some a ->
        last_opt (st_contractions two_contractions_run) = Some lastc ->
        0 <= a - end_ lastc).
Proof.
  split; [exact I|]. split; [constructor|].
  split; [exact two_contractions_run_ok|].
  exact (proj1 (proj2 (run_rests_nonnegative [] 400000 two_contractions_run
                         I (Forall_nil _) two_contractions_run_ok))).
Defined.
